(** * gen_time_quanta: the MLFQ time-quantum table generator

    A shallow embedding of [misc/scripts/gen_time_quanta.py] and the
    properties of its two functions, [generate_exponential_quanta] and
    [print_cpp_array].

    Python values are modelled as the interpreter has them: [int] is [Z],
    [float] is IEEE binary64 (Rocq's primitive [float], specified by
    [SpecFloat]), exceptions are an error result, and [print] appends a line
    to the standard output carried by the monad [M]. *)

From Stdlib Require Import ZArith QArith Qabs Qpower List String Ascii Bool Lia Lqa Sorted.
From Stdlib Require Import Floats DecimalString DecimalPos DecimalZ.
Import ListNotations.

Set Warnings "-inexact-float".
Local Open Scope Z_scope.

(** ** Python values *)

(** The exceptions the two functions can raise. *)
Inductive exn := ZeroDivisionError | OverflowError | ValueError | TypeError.

Inductive result (A : Type) :=
| Ok (a : A)
| Err (e : exn).
Arguments Ok {A} a.
Arguments Err {A} e.

(** The real numbers a caller passes: Python [int] and [float]. *)
Inductive num :=
| Int (z : Z)
| Float (f : float).

(** A value computed on the way.  [**] can leave the reals; a complex
    number carries no payload here, because the program can only print it
    or fail on it. *)
Inductive value :=
| Real (n : num)
| Complex.

(** What [print] writes.  The two [[INFO]] notices are f-strings that format
    floats; they are kept as events carrying the printed numbers. *)
Inductive line :=
| Line (s : string)
| InfoCalculated (target_max_ms : num) (growth_rate : value)
| InfoDefault (growth_rate : value).

(** ** Standard output and exceptions *)

Definition M (A : Type) : Type := list line * result A.

Definition ret {A} (a : A) : M A := ([], Ok a).

Definition bind {A B} (m : M A) (k : A -> M B) : M B :=
  match m with
  | (out, Err e) => (out, Err e)
  | (out, Ok a) => let (out', r) := k a in ((out ++ out')%list, r)
  end.

Definition lift {A} (r : result A) : M A := ([], r).

Definition print (l : line) : M unit := ([l], Ok tt).

Definition rbind {A B} (r : result A) (k : A -> result B) : result B :=
  match r with
  | Ok a => k a
  | Err e => Err e
  end.

Declare Scope py_scope.
Delimit Scope py_scope with py.
Notation "x <- m ;; k" := (bind m (fun x => k))
  (at level 61, m at next level, right associativity) : py_scope.
Notation "m ;; k" := (bind m (fun _ => k))
  (at level 61, right associativity) : py_scope.
Notation "x <~ r ;; k" := (rbind r (fun x => k))
  (at level 61, r at next level, right associativity) : py_scope.
Local Open Scope py_scope.

(** [for x in xs: s = body(x, s)], stopping at the first exception. *)
Fixpoint for_each {A S} (body : A -> S -> M S) (xs : list A) (s : S) : M S :=
  match xs with
  | [] => ret s
  | x :: xs' => s' <- body x s ;; for_each body xs' s'
  end.

(** ** Built-ins *)

(** [range(start, stop, step)] for a positive [step]; [range(n)] is
    [range(0, n, 1)]. *)
Definition range3 (start stop step : Z) : list Z :=
  map (fun k => start + step * Z.of_nat k)
      (seq 0 (Z.to_nat ((stop - start + step - 1) / step))).

Definition range (n : Z) : list Z := range3 0 n 1.

Definition len {A} (l : list A) : Z := Z.of_nat (List.length l).

(** [l[i:j]] for indices that are not negative. *)
Definition slice {A} (l : list A) (i j : Z) : list A :=
  firstn (Z.to_nat (j - i)) (skipn (Z.to_nat i) l).

(** [str] of an [int]. *)
Definition str (z : Z) : string := NilZero.string_of_int (Z.to_int z).

(** [sep.join(l)]. *)
Definition join (sep : string) (l : list string) : string := String.concat sep l.

(** ** Float arithmetic *)

(** [float(z)]: the nearest double, ties to even; too large an [int] raises. *)
Definition int_to_float (z : Z) : result float :=
  match binary_normalize prec emax z 0 false with
  | S754_infinity _ => Err OverflowError
  | sf => Ok (SF2Prim sf)
  end.

(** The integer a double is equal to, if any. *)
Definition float_integer (y : float) : option Z :=
  match Prim2SF y with
  | S754_zero _ => Some 0
  | S754_finite s m e =>
      if 0 <=? e then Some (cond_Zopp s (Zpos m * 2 ^ e))
      else if Zpos m mod 2 ^ (- e) =? 0 then Some (cond_Zopp s (Zpos m / 2 ^ (- e)))
      else None
  | _ => None
  end.

Definition is_odd_integer (y : float) : bool :=
  match float_integer y with
  | Some n => Z.odd n
  | None => false
  end.

(** The quotient of [m] by [2 ^ k] rounded to the nearest integer, ties to
    the even one. *)
Definition round_half_even (m k : Z) : Z :=
  let d := 2 ^ k in
  let q := m / d in
  match 2 * (m mod d) ?= d with
  | Lt => q
  | Gt => q + 1
  | Eq => if Z.even q then q else q + 1
  end.

(** [round(x)] of a float, with one argument: the nearest [int], ties to
    even; infinities and NaN raise. *)
Definition float_round (x : float) : result Z :=
  match Prim2SF x with
  | S754_nan => Err ValueError
  | S754_infinity _ => Err OverflowError
  | S754_zero _ => Ok 0
  | S754_finite s m e =>
      Ok (cond_Zopp s (if 0 <=? e then Zpos m * 2 ^ e
                       else round_half_even (Zpos m) (- e)))
  end.

(** [a / b] on floats. *)
Definition float_div (a b : float) : result float :=
  if (b =? 0)%float then Err ZeroDivisionError else Ok (a / b)%float.

(** [a / b] on ints: the correctly rounded quotient. *)
Definition Z2SF (z : Z) : spec_float :=
  match z with
  | Z0 => S754_zero false
  | Zpos p => S754_finite false p 0
  | Zneg p => S754_finite true p 0
  end.

Definition int_div (a b : Z) : result float :=
  if b =? 0 then Err ZeroDivisionError
  else match SFdiv prec emax (Z2SF a) (Z2SF b) with
       | S754_infinity _ => Err OverflowError
       | sf => Ok (SF2Prim sf)
       end.

(** [a / b], true division. *)
Definition py_truediv (a b : num) : result float :=
  match a, b with
  | Int x, Int y => int_div x y
  | Int x, Float y => fx <~ int_to_float x ;; float_div fx y
  | Float x, Int y => fy <~ int_to_float y ;; float_div x fy
  | Float x, Float y => float_div x y
  end.

(** [x ** n] for a finite positive [x] and a positive integer [n], correctly
    rounded. *)
Definition pow_exact (x : float) (n : Z) : float :=
  match Prim2SF x with
  | S754_finite _ m e => SF2Prim (binary_normalize prec emax (Zpos m ^ n) (e * n) false)
  | _ => x
  end.

(** The rational a finite double stands for (0 for the others). *)
Definition SF2Q (x : spec_float) : Q :=
  match x with
  | S754_finite s m e => (inject_Z (cond_Zopp s (Zpos m)) * 2 ^ e)%Q
  | _ => 0%Q
  end.

Definition float_value (x : float) : Q := SF2Q (Prim2SF x).

Section Interpreter.

(** The C library's [pow] on doubles.  CPython's [float.__pow__] calls it on a
    finite positive base other than 1 and a finite non-zero exponent.  On a
    positive integral exponent its result is taken to be the correctly
    rounded power [pow_exact]; on every other exponent it is this
    parameter. *)
Variable libm_pow : float -> float -> float.

Definition c_pow (x y : float) : float :=
  match float_integer y with
  | Some n => if 0 <? n then pow_exact x n else libm_pow x y
  | None => libm_pow x y
  end.

(** [x ** y] on floats, as [float_pow] of CPython's floatobject.c sorts the
    cases out. *)
Definition float_pow (x y : float) : result value :=
  if (y =? 0)%float then Ok (Real (Float 1))
  else if is_nan x then Ok (Real (Float x))
  else if is_nan y then Ok (Real (Float (if (x =? 1)%float then 1%float else y)))
  else if is_infinity y then
    let ax := abs x in
    if (ax =? 1)%float then Ok (Real (Float 1))
    else if Bool.eqb (0 <? y)%float (1 <? ax)%float then Ok (Real (Float (abs y)))
    else Ok (Real (Float 0))
  else if is_infinity x then
    if (0 <? y)%float
    then Ok (Real (Float (if is_odd_integer y then x else abs x)))
    else Ok (Real (Float (if is_odd_integer y then (if (x <? 0)%float then (-0)%float else 0%float)
                          else 0%float)))
  else if (x =? 0)%float then
    if (y <? 0)%float then Err ZeroDivisionError
    else Ok (Real (Float (if is_odd_integer y then x else 0%float)))
  else
    let ax := abs x in
    match (x <? 0)%float, float_integer y with
    | true, None =>
        (* a negative number raised to a fractional power is complex *)
        if is_infinity (c_pow ax y) then Err OverflowError else Ok Complex
    | negative, _ =>
        let negate_result := negative && is_odd_integer y in
        if (ax =? 1)%float then Ok (Real (Float (if negate_result then (-1)%float else 1%float)))
        else
          let ix := c_pow ax y in
          if is_infinity ix then Err OverflowError
          else Ok (Real (Float (if negate_result then (- ix)%float else ix)))
    end.

(** [a ** b]. *)
Definition py_pow (a : value) (b : num) : result value :=
  match a, b with
  | Real (Int x), Int y =>
      if 0 <=? y then Ok (Real (Int (x ^ y)))
      else fx <~ int_to_float x ;; fy <~ int_to_float y ;; float_pow fx fy
  | Real (Int x), Float y => fx <~ int_to_float x ;; float_pow fx y
  | Real (Float x), Int y => fy <~ int_to_float y ;; float_pow x fy
  | Real (Float x), Float y => float_pow x y
  | Complex, _ => Ok Complex
  end.

(** [a * b]. *)
Definition py_mul (a : num) (b : value) : result value :=
  match a, b with
  | Int x, Real (Int y) => Ok (Real (Int (x * y)))
  | Int x, Real (Float y) => fx <~ int_to_float x ;; Ok (Real (Float (fx * y)))
  | Float x, Real (Int y) => fy <~ int_to_float y ;; Ok (Real (Float (x * fy)))
  | Float x, Real (Float y) => Ok (Real (Float (x * y)))
  | Int x, Complex => _ <~ int_to_float x ;; Ok Complex
  | Float _, Complex => Ok Complex
  end.

(** [round(v)]. *)
Definition py_round (v : value) : result Z :=
  match v with
  | Real (Int z) => Ok z
  | Real (Float f) => float_round f
  | Complex => Err TypeError
  end.

(** ** The generator *)

(** Lines 5-14: the growth rate the expansion uses. *)
Definition resolve_rate (levels : Z) (start_ms : num)
    (growth_rate target_max_ms : option num) : M value :=
  match target_max_ms with
  | Some target =>
      ratio <- lift (py_truediv target start_ms) ;;
      exponent <- lift (py_truediv (Int 1) (Int (levels - 1))) ;;
      rate <- lift (py_pow (Real (Float ratio)) (Float exponent)) ;;
      print (InfoCalculated target rate) ;;
      ret rate
  | None =>
      match growth_rate with
      | None =>
          let rate := Real (Float 1.15) in
          print (InfoDefault rate) ;;
          ret rate
      | Some rate => ret (Real rate)
      end
  end.

(** Lines 18-19: the raw value of level [i] and its rounding. *)
Definition raw_value (start_ms : num) (growth_rate : value) (i : Z) : result value :=
  p <~ py_pow growth_rate (Int i) ;; py_mul start_ms p.

Definition quantum (start_ms : num) (growth_rate : value) (i : Z) : result Z :=
  val <~ raw_value start_ms growth_rate i ;; py_round val.

Definition generate_exponential_quanta (levels : Z) (start_ms : num)
    (growth_rate target_max_ms : option num) : M (list Z) :=
  growth_rate <- resolve_rate levels start_ms growth_rate target_max_ms ;;
  for_each (fun i quanta =>
              q <- lift (quantum start_ms growth_rate i) ;;
              ret (quanta ++ [q])%list)
           (range levels) [].

End Interpreter.

(** ** The renderer *)

Definition print_cpp_array (quanta : list Z) : M unit :=
  print (Line ("constexpr int TIME_SLICE_QUANTA[" ++ str (len quanta) ++ "] = {")%string) ;;
  let row_size := 8 in
  for_each (fun i _ =>
              let row := slice quanta i (i + row_size) in
              let row_str := join ", " (map str row) in
              if i + row_size <? len quanta
              then print (Line ("    " ++ row_str ++ ",")%string)
              else print (Line ("    " ++ row_str)%string))
           (range3 0 (len quanta) row_size) tt ;;
  print (Line "};").

(** ** Reasoning about the monad and the loops *)

(** A C library whose [pow] is never consulted: it closes statements about
    runs that stay in the exactly computed part of [**], as every run without
    [target_max_ms] does. *)
Definition pow_unused : float -> float -> float := fun _ _ => nan.

(** [[f(x) for x in xs]], stopping at the first exception. *)
Fixpoint traverse {A B} (f : A -> result B) (xs : list A) : result (list B) :=
  match xs with
  | [] => Ok []
  | x :: xs' => y <~ f x ;; ys <~ traverse f xs' ;; Ok (y :: ys)
  end.

Lemma bind_ret_r {A} (m : M A) : (x <- m ;; ret x) = m.
Proof.
  destruct m as [out [a|e]]; cbn; [rewrite app_nil_r|]; reflexivity.
Qed.

Lemma bind_lift {A B} (r : result A) (k : A -> M B) :
  (x <- lift r ;; k x) = match r with Ok a => k a | Err e => ([], Err e) end.
Proof.
  destruct r as [a|e]; cbn; [destruct (k a)|]; reflexivity.
Qed.

Lemma range_seq (n : Z) : range n = map Z.of_nat (seq 0 (Z.to_nat n)).
Proof.
  unfold range, range3.
  replace ((n - 0 + 1 - 1) / 1) with n by (rewrite Z.div_1_r; lia).
  apply map_ext; intro k; lia.
Qed.

Lemma range_length (n : Z) : List.length (range n) = Z.to_nat n.
Proof. rewrite range_seq, length_map, length_seq; reflexivity. Qed.

Lemma range_nil (n : Z) : n <= 0 -> range n = [].
Proof.
  intro H; rewrite range_seq.
  replace (Z.to_nat n) with O by lia; reflexivity.
Qed.

(** The loop of lines 17-19 appends one rounded value per index and prints
    nothing. *)
Lemma append_loop {A} (f : A -> result Z) (xs : list A) (acc : list Z) :
  for_each (fun i quanta => q <- lift (f i) ;; ret (quanta ++ [q])%list) xs acc
  = ([], match traverse f xs with
         | Ok qs => Ok (acc ++ qs)%list
         | Err e => Err e
         end).
Proof.
  revert acc; induction xs as [|x xs IH]; intro acc; cbn.
  - rewrite app_nil_r; reflexivity.
  - destruct (f x) as [q|e]; cbn; [|reflexivity].
    rewrite IH; destruct (traverse f xs) as [qs|e]; cbn; [|reflexivity].
    rewrite <- app_assoc; reflexivity.
Qed.

Lemma traverse_length {A B} (f : A -> result B) xs ys :
  traverse f xs = Ok ys -> List.length ys = List.length xs.
Proof.
  revert ys; induction xs as [|x xs IH]; cbn; intros ys H.
  - injection H as <-; reflexivity.
  - destruct (f x) as [y|e]; cbn in H; [|discriminate].
    destruct (traverse f xs) as [ys'|e]; cbn in H; [|discriminate].
    injection H as <-; cbn; f_equal; apply IH; reflexivity.
Qed.

Lemma traverse_Forall2 {A B} (f : A -> result B) xs ys :
  traverse f xs = Ok ys <-> Forall2 (fun x y => f x = Ok y) xs ys.
Proof.
  revert ys; induction xs as [|x xs IH]; cbn; intros ys; split; intro H.
  - injection H as <-; constructor.
  - inversion H; reflexivity.
  - destruct (f x) as [y|e] eqn:Hx; cbn in H; [|discriminate].
    destruct (traverse f xs) as [ys'|e] eqn:Hxs; cbn in H; [|discriminate].
    injection H as <-; constructor; [assumption|apply IH; reflexivity].
  - inversion H as [|? y ? ys' Hx Hxs]; subst.
    rewrite Hx; cbn. apply IH in Hxs; rewrite Hxs; reflexivity.
Qed.

Section Generator.

Variable libm_pow : float -> float -> float.

(** The expansion of lines 17-21, once the growth rate is known. *)
Definition expand (levels : Z) (start_ms : num) (growth_rate : value) : result (list Z) :=
  traverse (quantum libm_pow start_ms growth_rate) (range levels).

Lemma generate_expand levels start_ms growth_rate target_max_ms :
  generate_exponential_quanta libm_pow levels start_ms growth_rate target_max_ms
  = (rate <- resolve_rate libm_pow levels start_ms growth_rate target_max_ms ;;
     lift (expand levels start_ms rate)).
Proof.
  unfold generate_exponential_quanta, expand.
  destruct (resolve_rate _ _ _ _ _) as [out [rate|e]]; [|reflexivity].
  cbn [bind]. rewrite append_loop. unfold lift.
  destruct (traverse _ _); reflexivity.
Qed.

(** Without [target_max_ms] the rate never fails to resolve. *)
Lemma resolve_no_target levels start_ms growth_rate :
  resolve_rate libm_pow levels start_ms growth_rate None
  = match growth_rate with
    | Some rate => ([], Ok (Real rate))
    | None => ([InfoDefault (Real (Float 1.15))], Ok (Real (Float 1.15)))
    end.
Proof. destruct growth_rate; reflexivity. Qed.

Lemma generate_no_target levels start_ms growth_rate :
  generate_exponential_quanta libm_pow levels start_ms growth_rate None
  = match growth_rate with
    | Some rate => ([], expand levels start_ms (Real rate))
    | None => ([InfoDefault (Real (Float 1.15))], expand levels start_ms (Real (Float 1.15)))
    end.
Proof.
  rewrite generate_expand, resolve_no_target.
  destruct growth_rate; cbn; rewrite ?app_nil_r; reflexivity.
Qed.

(** C10.  With [target_max_ms] absent and [levels <= 0], whatever
    [start_ms] and [growth_rate] are, no exception is raised and the empty
    list is returned: nothing checks that [levels] is at least 1. *)
Theorem generate_nonpositive_levels levels start_ms growth_rate :
  levels <= 0 ->
  snd (generate_exponential_quanta libm_pow levels start_ms growth_rate None) = Ok [].
Proof.
  intro H. rewrite generate_no_target.
  unfold expand; rewrite (range_nil _ H).
  destruct growth_rate; reflexivity.
Qed.

(** C5.  With [target_max_ms] absent, a positive [levels] and a positive
    [start_ms], the list [generate] returns has exactly [levels] elements. *)
Theorem generate_length levels start_ms growth_rate out quanta :
  0 <= levels ->
  generate_exponential_quanta libm_pow levels start_ms growth_rate None = (out, Ok quanta) ->
  len quanta = levels.
Proof.
  intros Hl H. rewrite generate_no_target in H.
  assert (E : exists rate, expand levels start_ms rate = Ok quanta).
  { destruct growth_rate; injection H as _ H; eauto. }
  destruct E as [rate E]. apply traverse_length in E.
  unfold len; rewrite E, range_length; lia.
Qed.

(** C3.  The rate is resolved in this order: a supplied [target_max_ms]
    wins and the supplied [growth_rate] is not looked at (the rate is derived
    as [(target / start) ** (1 / (levels - 1))]); otherwise a supplied
    [growth_rate] is used as it is; otherwise the rate is [1.15].  The
    expansion then runs with the resolved rate. *)
Theorem rate_resolution levels start_ms growth_rate target :
  resolve_rate libm_pow levels start_ms growth_rate (Some target)
    = resolve_rate libm_pow levels start_ms None (Some target)
  /\ resolve_rate libm_pow levels start_ms growth_rate (Some target)
    = (ratio <- lift (py_truediv target start_ms) ;;
       exponent <- lift (py_truediv (Int 1) (Int (levels - 1))) ;;
       rate <- lift (float_pow libm_pow ratio exponent) ;;
       print (InfoCalculated target rate) ;;
       ret rate)
  /\ generate_exponential_quanta libm_pow levels start_ms growth_rate (Some target)
    = generate_exponential_quanta libm_pow levels start_ms None (Some target)
  /\ (forall rate, resolve_rate libm_pow levels start_ms (Some rate) None = ([], Ok (Real rate)))
  /\ resolve_rate libm_pow levels start_ms None None
    = ([InfoDefault (Real (Float 1.15))], Ok (Real (Float 1.15)))
  /\ (forall rate target_max_ms,
        generate_exponential_quanta libm_pow levels start_ms rate target_max_ms
        = (r <- resolve_rate libm_pow levels start_ms rate target_max_ms ;;
           lift (expand levels start_ms r))).
Proof.
  repeat split; try reflexivity.
  intros; apply generate_expand.
Qed.

(** C4.  [generate(3, 10, None, None)] announces and uses the rate [1.15]; its
    raw values are the doubles [10.0], [11.5] and [13.224999999999998] (the
    double next to 13.225), and the returned list is [[10, 12, 13]]. *)
Theorem default_mode_example :
  generate_exponential_quanta libm_pow 3 (Int 10) None None
    = ([InfoDefault (Real (Float 1.15))], Ok [10; 12; 13])
  /\ map (raw_value libm_pow (Int 10) (Real (Float 1.15))) (range 3)
    = [Ok (Real (Float 10)); Ok (Real (Float 11.5)); Ok (Real (Float 13.224999999999998))]
  /\ (Qabs (float_value 13.224999999999998 - (13225 # 1000)) < 1 # 100000000000000)%Q.
Proof.
  split; [|split].
  - rewrite generate_no_target. vm_compute. reflexivity.
  - vm_compute. reflexivity.
  - vm_compute. reflexivity.
Qed.

(** When [levels = 1] and a target is given, the division by [levels - 1]
    raises, unless [target / start] has raised just before it; either way
    nothing has been printed. *)
Lemma generate_one_level_target start_ms growth_rate target :
  generate_exponential_quanta libm_pow 1 start_ms growth_rate (Some target)
  = ([], Err match py_truediv target start_ms with
             | Ok _ => ZeroDivisionError
             | Err e => e
             end).
Proof.
  unfold generate_exponential_quanta, resolve_rate.
  destruct (py_truediv target start_ms); reflexivity.
Qed.

(** C1, as the program has it.  [generate] validates nothing and has no
    InvalidParameter error.  With [target_max_ms] absent its result is the
    plain expansion, whatever the signs of [levels], [start_ms] and the rate,
    and for [levels < 1] that is the empty list.  With a target and
    [levels = 1] it raises ZeroDivisionError (or what [target / start] raised)
    before anything is printed or returned. *)
Theorem generate_validates_nothing levels start_ms growth_rate target :
  generate_exponential_quanta libm_pow levels start_ms growth_rate None
    = match growth_rate with
      | Some rate => ([], expand levels start_ms (Real rate))
      | None => ([InfoDefault (Real (Float 1.15))], expand levels start_ms (Real (Float 1.15)))
      end
  /\ (levels < 1 -> snd (generate_exponential_quanta libm_pow levels start_ms growth_rate None) = Ok [])
  /\ generate_exponential_quanta libm_pow 1 start_ms growth_rate (Some target)
    = ([], Err match py_truediv target start_ms with
               | Ok _ => ZeroDivisionError
               | Err e => e
               end).
Proof.
  split; [apply generate_no_target|split].
  - intro H; rewrite generate_no_target; unfold expand.
    rewrite range_nil by lia. destruct growth_rate; reflexivity.
  - apply generate_one_level_target.
Qed.

End Generator.

(** ** Runs *)

Lemma generate_nonpositive_levels_witness :
  -2 <= 0 /\ snd (generate_exponential_quanta pow_unused (-2) (Int 10) (Some (Float 1.1)) None) = Ok [].
Proof.
  split; [lia|].
  apply (generate_nonpositive_levels pow_unused (-2) (Int 10) (Some (Float 1.1))); lia.
Defined.

Lemma generate_length_witness :
  0 <= 5
  /\ generate_exponential_quanta pow_unused 5 (Int 10) (Some (Float 1.1)) None
     = ([], Ok [10; 11; 12; 13; 15])
  /\ len [10; 11; 12; 13; 15] = 5.
Proof.
  assert (H : generate_exponential_quanta pow_unused 5 (Int 10) (Some (Float 1.1)) None
              = ([], Ok [10; 11; 12; 13; 15])) by (vm_compute; reflexivity).
  split; [lia|split; [exact H|]].
  apply (generate_length pow_unused 5 (Int 10) (Some (Float 1.1)) [] _ ltac:(lia) H).
Defined.

(** C1 as stated fails: none of the four violations below is rejected as an
    invalid parameter.  The first three runs return a list; the last one
    raises the division error of [1 / (levels - 1)]. *)
Lemma generate_validation_counterexample :
  (0 < 1
   /\ generate_exponential_quanta pow_unused 0 (Int 10) (Some (Float 1.1)) None = ([], Ok []))
  /\ (0 <= 0
      /\ generate_exponential_quanta pow_unused 3 (Int 0) (Some (Float 1.1)) None = ([], Ok [0; 0; 0]))
  /\ (-2 <= 0
      /\ generate_exponential_quanta pow_unused 3 (Int 10) (Some (Int (-2))) None
         = ([], Ok [10; -20; 40]))
  /\ (1 < 2
      /\ generate_exponential_quanta pow_unused 1 (Int 10) None (Some (Int 20))
         = ([], Err ZeroDivisionError)).
Proof.
  repeat split; try lia; vm_compute; reflexivity.
Qed.

Lemma generate_validates_nothing_witness :
  0 < 1
  /\ snd (generate_exponential_quanta pow_unused 0 (Int 10) (Some (Float 1.1)) None) = Ok [].
Proof.
  split; [lia|].
  apply (generate_validates_nothing pow_unused 0 (Int 10) (Some (Float 1.1)) (Int 20)); lia.
Defined.

(** ** The renderer's layout *)

(** The first [cnt] rows of eight values of [l]. *)
Fixpoint take_rows (cnt : nat) (l : list Z) : list (list Z) :=
  match cnt with
  | O => []
  | S c => firstn 8 l :: take_rows c (skipn 8 l)
  end.

Definition rows_of (l : list Z) : list (list Z) :=
  take_rows (Nat.div (List.length l + 7) 8) l.

Definition row_text (row : list Z) : string := ("    " ++ join ", " (map str row))%string.

(** Every row but the last ends with a comma. *)
Fixpoint row_lines (rows : list (list Z)) : list string :=
  match rows with
  | [] => []
  | [row] => [row_text row]
  | row :: rest => (row_text row ++ ",")%string :: row_lines rest
  end.

Definition header (n : Z) : string :=
  ("constexpr int TIME_SLICE_QUANTA[" ++ str n ++ "] = {")%string.

Fixpoint last_char (s : string) : option ascii :=
  match s with
  | EmptyString => None
  | String c EmptyString => Some c
  | String _ s' => last_char s'
  end.

Lemma take_rows_nil cnt l : take_rows cnt l = [] <-> cnt = O.
Proof. destruct cnt; cbn; split; auto; discriminate. Qed.

Lemma render_loop (quanta : list Z) (body : Z -> unit -> M unit) (cnt a : nat) :
  (forall i u, body i u
     = print (Line (if i + 8 <? len quanta
                    then (row_text (slice quanta i (i + 8)) ++ ",")%string
                    else row_text (slice quanta i (i + 8))))) ->
  (8 * a + 8 * cnt >= List.length quanta)%nat ->
  (cnt = O \/ 8 * (a + cnt - 1) < List.length quanta)%nat ->
  for_each body (map (fun k => 0 + 8 * Z.of_nat k) (seq a cnt)) tt
  = (map Line (row_lines (take_rows cnt (skipn (8 * a) quanta))), Ok tt).
Proof.
  intro Hbody.
  revert a; induction cnt as [|c IH]; intros a Hge Hlt; [reflexivity|].
  cbn [seq map for_each take_rows]. rewrite Hbody.
  assert (Hs : slice quanta (0 + 8 * Z.of_nat a) (0 + 8 * Z.of_nat a + 8)
               = firstn 8 (skipn (8 * a) quanta)).
  { unfold slice. f_equal; [lia|f_equal; lia]. }
  rewrite Hs, skipn_skipn.
  replace (8 + 8 * a)%nat with (8 * S a)%nat by lia.
  specialize (IH (S a)).
  destruct c as [|c'].
  - replace (0 + 8 * Z.of_nat a + 8 <? len quanta) with false
      by (symmetry; apply Z.ltb_ge; unfold len; lia).
    reflexivity.
  - replace (0 + 8 * Z.of_nat a + 8 <? len quanta) with true
      by (symmetry; apply Z.ltb_lt; unfold len; lia).
    unfold print, bind. rewrite IH by lia.
    reflexivity.
Qed.

Lemma print_cpp_array_rows (quanta : list Z) :
  print_cpp_array quanta
  = (Line (header (len quanta)) :: map Line (row_lines (rows_of quanta)) ++ [Line "};"],
     Ok tt).
Proof.
  unfold print_cpp_array, range3, rows_of.
  replace (Z.to_nat ((len quanta - 0 + 8 - 1) / 8)) with (Nat.div (List.length quanta + 7) 8).
  2:{ unfold len. replace (Z.of_nat (List.length quanta) - 0 + 8 - 1)
        with (Z.of_nat (List.length quanta + 7)) by lia.
      change 8 with (Z.of_nat 8). rewrite <- Nat2Z.inj_div. lia. }
  pose proof (Nat.div_mod_eq (List.length quanta + 7) 8) as Hd.
  pose proof (Nat.mod_upper_bound (List.length quanta + 7) 8 ltac:(lia)) as Hm.
  erewrite render_loop.
  - reflexivity.
  - intros i u. cbv zeta. destruct (i + 8 <? len quanta); reflexivity.
  - lia.
  - lia.
Qed.

Lemma firstn_8_length (l : list Z) :
  (8 <= List.length l)%nat -> List.length (firstn 8 l) = 8%nat.
Proof. intro H; rewrite length_firstn; lia. Qed.

(** The rows partition the values in order; all rows but the last hold
    exactly eight of them. *)
Lemma take_rows_split (cnt : nat) (l : list Z) :
  (8 * cnt < List.length l)%nat -> (List.length l <= 8 * S cnt)%nat ->
  exists full last,
    take_rows (S cnt) l = (full ++ [last])%list
    /\ Forall (fun row => List.length row = 8%nat) full
    /\ (1 <= List.length last <= 8)%nat
    /\ (List.concat full ++ last)%list = l.
Proof.
  revert l; induction cnt as [|c IH]; intros l Hlo Hhi.
  - exists [], l. cbn [take_rows app List.concat]. rewrite firstn_all2 by lia.
    repeat split; [constructor|lia|lia].
  - destruct (IH (skipn 8 l)) as (full & last & E & Hf & Hl & Hc).
    + rewrite length_skipn; lia.
    + rewrite length_skipn; lia.
    + exists (firstn 8 l :: full), last.
      change (take_rows (S (S c)) l) with (firstn 8 l :: take_rows (S c) (skipn 8 l)).
      rewrite E. repeat split; try tauto.
      * constructor; [apply firstn_8_length; lia|assumption].
      * cbn [List.concat]. rewrite <- app_assoc, Hc. apply firstn_skipn.
Qed.

Lemma rows_of_split (l : list Z) :
  l <> [] ->
  exists full last,
    rows_of l = (full ++ [last])%list
    /\ Forall (fun row => List.length row = 8%nat) full
    /\ (1 <= List.length last <= 8)%nat
    /\ (List.concat full ++ last)%list = l.
Proof.
  intro Hne. unfold rows_of.
  pose proof (Nat.div_mod_eq (List.length l + 7) 8) as Hd.
  pose proof (Nat.mod_upper_bound (List.length l + 7) 8 ltac:(lia)) as Hm.
  assert (Hpos : (0 < List.length l)%nat) by (destruct l; [congruence|cbn; lia]).
  destruct (Nat.div (List.length l + 7) 8) as [|c] eqn:E; [lia|].
  apply take_rows_split; lia.
Qed.

Lemma row_lines_snoc (full : list (list Z)) (last : list Z) :
  row_lines (full ++ [last])
  = (map (fun row => (row_text row ++ ",")%string) full ++ [row_text last])%list.
Proof.
  induction full as [|row full IH]; [reflexivity|].
  cbn [app map]. rewrite <- IH.
  destruct full; reflexivity.
Qed.

(** *** Characters of the rendered numbers *)

Definition is_numeral_char (c : ascii) : bool :=
  match c with
  | "0" | "1" | "2" | "3" | "4" | "5" | "6" | "7" | "8" | "9" | "-" => true
  | _ => false
  end%char.

Fixpoint all_chars (p : ascii -> bool) (s : string) : bool :=
  match s with
  | EmptyString => true
  | String c s' => p c && all_chars p s'
  end.

Lemma string_app_assoc (a b c : string) : ((a ++ b) ++ c = a ++ b ++ c)%string.
Proof. induction a as [|x a IH]; cbn; [|rewrite IH]; reflexivity. Qed.

Lemma string_app_nil_r (a : string) : (a ++ "")%string = a.
Proof. induction a as [|x a IH]; cbn; [|rewrite IH]; reflexivity. Qed.

Lemma last_char_app (a b : string) :
  b <> EmptyString -> last_char (a ++ b) = last_char b.
Proof.
  intro Hb; induction a as [|x a IH]; [reflexivity|].
  cbn [append last_char]. rewrite IH.
  destruct (a ++ b)%string eqn:E; [|reflexivity].
  destruct a; cbn in E; [congruence|discriminate].
Qed.

Lemma uint_chars (d : Decimal.uint) :
  all_chars is_numeral_char (NilEmpty.string_of_uint d) = true
  /\ (d <> Decimal.Nil ->
      exists c, last_char (NilEmpty.string_of_uint d) = Some c /\ c <> ","%char).
Proof.
  induction d as [|d [IH1 IH2]|d [IH1 IH2]|d [IH1 IH2]|d [IH1 IH2]|d [IH1 IH2]
                  |d [IH1 IH2]|d [IH1 IH2]|d [IH1 IH2]|d [IH1 IH2]|d [IH1 IH2]];
    (split; [try reflexivity; cbn; exact IH1|]); intro Hn; try congruence;
    cbn [NilEmpty.string_of_uint last_char];
    (destruct d;
     [ eexists; split; [reflexivity|discriminate]
     | destruct IH2 as (c & Hc & Hcc); [discriminate|];
       cbn [NilEmpty.string_of_uint] in *; exists c; split; assumption .. ]).
Qed.

Lemma str_chars (z : Z) :
  all_chars is_numeral_char (str z) = true
  /\ str z <> EmptyString
  /\ exists c, last_char (str z) = Some c /\ c <> ","%char.
Proof.
  assert (U : forall d, d <> Decimal.Nil ->
            all_chars is_numeral_char (NilZero.string_of_uint d) = true
            /\ NilZero.string_of_uint d <> EmptyString
            /\ exists c, last_char (NilZero.string_of_uint d) = Some c /\ c <> ","%char).
  { intros d Hd. destruct (uint_chars d) as [H1 H2].
    destruct d; try congruence; (repeat split; [exact H1|discriminate|apply H2; discriminate]). }
  unfold str. destruct z as [|p|p]; cbn [Z.to_int NilZero.string_of_int].
  - repeat split; try discriminate. eexists; split; [reflexivity|discriminate].
  - apply U, DecimalPos.Unsigned.to_uint_nonnil.
  - destruct (U (Pos.to_uint p) (DecimalPos.Unsigned.to_uint_nonnil p)) as (H1 & H2 & c & Hc & Hcc).
    repeat split; [exact H1|discriminate|].
    exists c; split; [|assumption].
    cbn [last_char]. destruct (NilZero.string_of_uint (Pos.to_uint p)); [congruence|assumption].
Qed.

(** *** Reading the numbers back from a line *)

Definition flush (cur : string) : list string :=
  match cur with
  | EmptyString => []
  | _ => [cur]
  end.

(** The maximal runs of digits and minus signs of [s], after the run [cur]
    already read. *)
Fixpoint numerals (s cur : string) : list string :=
  match s with
  | EmptyString => flush cur
  | String c s' =>
      if is_numeral_char c then numerals s' (cur ++ String c EmptyString)
      else (flush cur ++ numerals s' EmptyString)%list
  end.

Definition parse_int (t : string) : list Z :=
  match NilZero.int_of_string t with
  | Some d => [Z.of_int d]
  | None => []
  end.

(** The integers written in a line of text, in order. *)
Definition numbers_in (s : string) : list Z :=
  flat_map parse_int (numerals s EmptyString).

Lemma numerals_app (t s cur : string) :
  all_chars is_numeral_char t = true ->
  numerals (t ++ s) cur = numerals s (cur ++ t).
Proof.
  revert cur; induction t as [|c t IH]; intros cur H.
  - cbn. rewrite string_app_nil_r; reflexivity.
  - cbn in H. apply andb_prop in H as [Hc Ht].
    cbn [append numerals]. rewrite Hc, IH by assumption.
    rewrite string_app_assoc; reflexivity.
Qed.

Lemma flush_nonempty (t : string) : t <> EmptyString -> flush t = [t].
Proof. destruct t; [congruence|reflexivity]. Qed.

Lemma parse_int_str (z : Z) : parse_int (str z) = [z].
Proof.
  unfold parse_int, str. rewrite NilZero.isi.
  - rewrite DecimalZ.of_to; reflexivity.
  - destruct z; cbn; try discriminate;
      intro H; injection H as H; exact (DecimalPos.Unsigned.to_uint_nonnil _ H).
  - destruct z; cbn; try discriminate;
      intro H; injection H as H; exact (DecimalPos.Unsigned.to_uint_nonnil _ H).
Qed.

(** A joined row, followed by nothing or by a comma, reads back as the row. *)
Lemma numerals_join (row : list Z) (tail : string) :
  tail = EmptyString \/ tail = ","%string ->
  numerals (join ", " (map str row) ++ tail) EmptyString = map str row.
Proof.
  intro Ht. induction row as [|x row IH].
  - destruct Ht as [-> | ->]; reflexivity.
  - destruct (str_chars x) as (Hall & Hne & _).
    destruct row as [|y row].
    + cbn [map join String.concat]. rewrite numerals_app by assumption.
      cbn [append]. destruct Ht as [-> | ->]; cbn; rewrite flush_nonempty by assumption;
        reflexivity.
    + change (join ", " (map str (x :: y :: row)))
        with (str x ++ ", " ++ join ", " (map str (y :: row)))%string.
      rewrite !string_app_assoc, numerals_app by assumption.
      cbn [append numerals is_numeral_char]. rewrite flush_nonempty by assumption.
      cbn [flush app]. cbn [map]. f_equal. exact IH.
Qed.

Lemma numbers_in_row (row : list Z) :
  numbers_in (row_text row) = row /\ numbers_in (row_text row ++ ",") = row.
Proof.
  assert (P : flat_map parse_int (map str row) = row).
  { induction row as [|x row IH]; [reflexivity|].
    cbn [map flat_map]. rewrite parse_int_str, IH; reflexivity. }
  unfold numbers_in, row_text; split.
  - cbn [append numerals is_numeral_char flush app].
    rewrite <- (string_app_nil_r (join ", " (map str row))).
    rewrite numerals_join by (left; reflexivity). exact P.
  - cbn [append numerals is_numeral_char flush app].
    rewrite numerals_join by (right; reflexivity). exact P.
Qed.

Lemma numbers_in_rows (quanta : list Z) :
  flat_map numbers_in (row_lines (rows_of quanta)) = quanta.
Proof.
  destruct quanta as [|q quanta]; [reflexivity|].
  destruct (rows_of_split (q :: quanta)) as (full & last & E & _ & _ & Hc); [discriminate|].
  rewrite E, row_lines_snoc, flat_map_app. cbn [flat_map].
  rewrite app_nil_r, (proj1 (numbers_in_row last)).
  rewrite <- Hc. f_equal.
  clear. induction full as [|row full IH]; [reflexivity|].
  cbn [map flat_map List.concat]. rewrite (proj2 (numbers_in_row row)), IH; reflexivity.
Qed.

Lemma join_snoc (init : list Z) (y : Z) :
  exists p, join ", " (map str (init ++ [y])) = (p ++ str y)%string.
Proof.
  induction init as [|a init [p IH]].
  - exists EmptyString; reflexivity.
  - exists (str a ++ ", " ++ p)%string.
    rewrite !string_app_assoc, <- IH.
    destruct init; reflexivity.
Qed.

(** C7.  For a non-empty list the declaration gives the number of values as
    the array size, writes the values eight to a row, ends every row but the
    last with a comma and puts no comma after the last value.  Eight values
    make one row without a comma; nine make a row of eight ending in a comma
    and a row of one. *)
Theorem print_cpp_array_layout (quanta : list Z) :
  quanta <> [] ->
  exists full last,
    print_cpp_array quanta
    = (Line ("constexpr int TIME_SLICE_QUANTA[" ++ str (len quanta) ++ "] = {")
         :: map Line (map (fun row => (row_text row ++ ",")%string) full ++ [row_text last])
         ++ [Line "};"],
       Ok tt)
    /\ (List.concat full ++ last)%list = quanta
    /\ Forall (fun row => List.length row = 8%nat) full
    /\ (1 <= List.length last <= 8)%nat
    /\ Forall (fun row => last_char (row_text row ++ ",") = Some ","%char) full
    /\ last_char (row_text last) <> Some ","%char
    /\ (len quanta = 8 -> full = [] /\ last = quanta)
    /\ (len quanta = 9 -> full = [firstn 8 quanta] /\ last = skipn 8 quanta).
Proof.
  intro Hne.
  destruct (rows_of_split quanta Hne) as (full & last & E & Hf & Hl & Hc).
  exists full, last.
  assert (Hlen : List.length quanta = (8 * List.length full + List.length last)%nat).
  { rewrite <- Hc, length_app. f_equal.
    clear - Hf. induction Hf as [|row full Hr _ IH]; [reflexivity|].
    cbn [List.concat]. rewrite length_app, IH, Hr. cbn [List.length]. lia. }
  repeat split; try assumption; try lia.
  - rewrite print_cpp_array_rows, E, row_lines_snoc. reflexivity.
  - apply Forall_forall; intros row _.
    apply (last_char_app (row_text row) ","); discriminate.
  - destruct last as [|x last']; [cbn in Hl; lia|].
    destruct (exists_last (l := x :: last') ltac:(discriminate)) as (init & y & ->).
    destruct (str_chars y) as (_ & Hy & c & Hc' & Hcc).
    destruct (join_snoc init y) as [p J].
    unfold row_text. rewrite J, <- string_app_assoc, last_char_app, Hc' by assumption.
    congruence.
  - unfold len in H. destruct full; [reflexivity|cbn in Hlen; lia].
  - unfold len in H. destruct full; [|cbn in Hlen; lia].
    rewrite <- Hc; reflexivity.
  - unfold len in H. destruct full as [|r [|r' full]]; cbn in Hlen; try lia.
    apply Forall_inv in Hf. cbn in Hc. rewrite app_nil_r in Hc.
    rewrite <- Hc, firstn_app, Hf, Nat.sub_diag, firstn_O, app_nil_r.
    rewrite <- Hf, firstn_all. reflexivity.
  - unfold len in H. destruct full as [|r [|r' full]]; cbn in Hlen; try lia.
    apply Forall_inv in Hf. cbn in Hc. rewrite app_nil_r in Hc.
    rewrite <- Hc, skipn_app, Hf, Nat.sub_diag, skipn_O.
    rewrite <- Hf, skipn_all. reflexivity.
Qed.

Example numbers_in_line : numbers_in "    10, -20, 40," = [10; -20; 40].
Proof. reflexivity. Qed.

(** C8.  The numbers that can be read in the value rows of the output are the
    input list, in order and unchanged; the renderer raises nothing; and the
    empty list gives the declaration of an empty array, with size 0 and no
    value row. *)
Theorem print_cpp_array_values (quanta : list Z) :
  (exists rows,
      print_cpp_array quanta
      = (Line ("constexpr int TIME_SLICE_QUANTA[" ++ str (len quanta) ++ "] = {")
           :: map Line rows ++ [Line "};"],
         Ok tt)
      /\ flat_map numbers_in rows = quanta)
  /\ print_cpp_array []
     = ([Line "constexpr int TIME_SLICE_QUANTA[0] = {"; Line "};"], Ok tt).
Proof.
  split; [|reflexivity].
  exists (row_lines (rows_of quanta)); split.
  - apply print_cpp_array_rows.
  - apply numbers_in_rows.
Qed.

Lemma print_cpp_array_layout_witness :
  [1; 2; 3; 4; 5; 6; 7; 8; 9] <> []
  /\ exists full last,
      print_cpp_array [1; 2; 3; 4; 5; 6; 7; 8; 9]
      = (Line "constexpr int TIME_SLICE_QUANTA[9] = {"
           :: map Line (map (fun row => (row_text row ++ ",")%string) full ++ [row_text last])
           ++ [Line "};"],
         Ok tt)
      /\ full = [[1; 2; 3; 4; 5; 6; 7; 8]] /\ last = [9].
Proof.
  split; [discriminate|].
  destruct (print_cpp_array_layout [1; 2; 3; 4; 5; 6; 7; 8; 9] ltac:(discriminate))
    as (full & last & E & _ & _ & _ & _ & _ & _ & H9).
  destruct (H9 eq_refl) as [-> ->].
  exists [[1; 2; 3; 4; 5; 6; 7; 8]], [9]. split; [exact E|split; reflexivity].
Defined.

(** ** Binary64 rounding *)

(** Dyadic numbers as rationals. *)
Definition bpow (e : Z) : Q := (2 ^ e)%Q.
Definition F2Q (m e : Z) : Q := (inject_Z m * bpow e)%Q.

Lemma bpow_pos e : (0 < bpow e)%Q.
Proof. apply Qpower_0_lt; reflexivity. Qed.

Lemma bpow_add a b : (bpow (a + b) == bpow a * bpow b)%Q.
Proof. apply Qpower_plus; discriminate. Qed.

Lemma bpow_le a b : a <= b -> (bpow a <= bpow b)%Q.
Proof. intro H; apply Qpower_le_compat_l; [assumption|discriminate]. Qed.

Lemma bpow_lt a b : a < b -> (bpow a < bpow b)%Q.
Proof. intro H; apply Qpower_lt_compat_l; [assumption|reflexivity]. Qed.

Lemma bpow_Z k : 0 <= k -> (inject_Z (2 ^ k) == bpow k)%Q.
Proof. intro H; apply (Zpower_Qpower 2 k H). Qed.


(** ** Rounding to the nearest, ties to even *)

Section RoundHalfEven.

Variable k : Z.
Hypothesis Hk : 0 <= k.

Lemma round_half_even_bounds m :
  - 2 ^ k <= 2 * (round_half_even m k * 2 ^ k - m) <= 2 ^ k.
Proof.
  unfold round_half_even.
  assert (Hd : 0 < 2 ^ k) by (apply Z.pow_pos_nonneg; lia).
  pose proof (Z.div_mod m (2 ^ k) ltac:(lia)) as E.
  pose proof (Z.mod_pos_bound m (2 ^ k) Hd) as B.
  destruct (Z.compare_spec (2 * (m mod 2 ^ k)) (2 ^ k)) as [C|C|C];
    [destruct (Z.even (m / 2 ^ k))|..]; nia.
Qed.

Lemma round_half_even_tie m :
  Z.abs (2 * (round_half_even m k * 2 ^ k - m)) = 2 ^ k ->
  Z.even (round_half_even m k) = true.
Proof.
  unfold round_half_even.
  assert (Hd : 0 < 2 ^ k) by (apply Z.pow_pos_nonneg; lia).
  pose proof (Z.div_mod m (2 ^ k) ltac:(lia)) as E.
  pose proof (Z.mod_pos_bound m (2 ^ k) Hd) as B.
  destruct (Z.compare_spec (2 * (m mod 2 ^ k)) (2 ^ k)) as [C|C|C].
  - destruct (Z.even (m / 2 ^ k)) eqn:Ev; intros _; [assumption|].
    rewrite Z.even_add, Ev; reflexivity.
  - intro H; nia.
  - intro H; nia.
Qed.

Lemma round_half_even_mono m1 m2 :
  m1 <= m2 -> round_half_even m1 k <= round_half_even m2 k.
Proof.
  intro Hm. unfold round_half_even.
  assert (Hd : 0 < 2 ^ k) by (apply Z.pow_pos_nonneg; lia).
  pose proof (Z.div_mod m1 (2 ^ k) ltac:(lia)) as E1.
  pose proof (Z.mod_pos_bound m1 (2 ^ k) Hd) as B1.
  pose proof (Z.div_mod m2 (2 ^ k) ltac:(lia)) as E2.
  pose proof (Z.mod_pos_bound m2 (2 ^ k) Hd) as B2.
  pose proof (Z.div_le_mono m1 m2 (2 ^ k) Hd Hm) as Hq.
  destruct (Z.eq_dec (m1 / 2 ^ k) (m2 / 2 ^ k)) as [Q|Q].
  - rewrite <- Q in *.
    assert (m1 mod 2 ^ k <= m2 mod 2 ^ k) by nia.
    destruct (Z.compare_spec (2 * (m1 mod 2 ^ k)) (2 ^ k));
      destruct (Z.compare_spec (2 * (m2 mod 2 ^ k)) (2 ^ k));
      destruct (Z.even (m1 / 2 ^ k)); lia.
  - destruct (Z.compare_spec (2 * (m1 mod 2 ^ k)) (2 ^ k));
      destruct (Z.compare_spec (2 * (m2 mod 2 ^ k)) (2 ^ k));
      destruct (Z.even (m1 / 2 ^ k)); destruct (Z.even (m2 / 2 ^ k)); lia.
Qed.

Lemma round_half_even_exact q : round_half_even (q * 2 ^ k) k = q.
Proof.
  unfold round_half_even.
  assert (Hd : 0 < 2 ^ k) by (apply Z.pow_pos_nonneg; lia).
  rewrite Z.mod_mul, Z.div_mul by lia.
  destruct (Z.compare_spec (2 * 0) (2 ^ k)); lia.
Qed.

End RoundHalfEven.

(** [M * 2 ^ E] is a multiple of [2 ^ E] nearest to [v], and [M] is even
    when [v] is half-way between two multiples. *)
Definition nearest_even (v : Q) (M E : Z) : Prop :=
  (2 * Qabs (F2Q M E - v) <= bpow E)%Q
  /\ (2 * Qabs (F2Q M E - v) == bpow E -> Z.even M = true)%Q.

Lemma F2Q_le m1 m2 e : m1 <= m2 -> (F2Q m1 e <= F2Q m2 e)%Q.
Proof.
  intro H. unfold F2Q. apply Qmult_le_compat_r.
  - rewrite <- Zle_Qle; assumption.
  - apply Qlt_le_weak, bpow_pos.
Qed.

Lemma F2Q_shift m e j : 0 <= j -> (F2Q (m * 2 ^ j) (e - j) == F2Q m e)%Q.
Proof.
  intro H. unfold F2Q. rewrite inject_Z_mult, bpow_Z by assumption.
  rewrite <- Qmult_assoc, <- bpow_add.
  replace (j + (e - j)) with e by lia. reflexivity.
Qed.

Lemma nearest_even_exact M E : nearest_even (F2Q M E) M E.
Proof.
  pose proof (bpow_pos E).
  assert (Z : (Qabs (F2Q M E - F2Q M E) == 0)%Q).
  { setoid_replace (F2Q M E - F2Q M E)%Q with 0%Q by ring. reflexivity. }
  split; rewrite Z.
  - lra.
  - intro. lra.
Qed.

Lemma nearest_even_mono v1 v2 M1 M2 E :
  (v1 <= v2)%Q -> nearest_even v1 M1 E -> nearest_even v2 M2 E -> M1 <= M2.
Proof.
  intros Hv [B1 T1] [B2 T2].
  pose proof (bpow_pos E) as Hu.
  destruct (Z_le_gt_dec M1 M2) as [|Hgt]; [assumption|exfalso].
  assert (B1' : (Qabs (F2Q M1 E - v1) <= bpow E * (1#2))%Q) by lra.
  assert (B2' : (Qabs (F2Q M2 E - v2) <= bpow E * (1#2))%Q) by lra.
  apply Qabs_Qle_condition in B1', B2'.
  unfold F2Q in *.
  assert (D : M1 = M2 + 1 \/ M2 + 2 <= M1) by lia.
  destruct D as [D|D].
  - subst M1. rewrite inject_Z_plus in *. change (inject_Z 1) with 1%Q in *.
    assert (E1 : ((inject_Z M2 + 1) * bpow E - v1 == bpow E * (1#2))%Q) by lra.
    assert (E2 : (inject_Z M2 * bpow E - v2 == - (bpow E * (1#2)))%Q) by lra.
    assert (Ev1 : Z.even (M2 + 1) = true).
    { apply T1. rewrite E1, Qabs_pos by lra. lra. }
    assert (Ev2 : Z.even M2 = true).
    { apply T2. rewrite E2, Qabs_opp, Qabs_pos by lra. lra. }
    rewrite Z.even_add, Ev2 in Ev1. discriminate.
  - assert (L : (inject_Z (M2 + 2) * bpow E <= inject_Z M1 * bpow E)%Q).
    { apply Qmult_le_compat_r; [rewrite <- Zle_Qle; assumption|lra]. }
    rewrite inject_Z_plus in L. change (inject_Z 2) with 2%Q in L. lra.
Qed.

Lemma Qabs_inject_Z z : Qabs (inject_Z z) = inject_Z (Z.abs z).
Proof. reflexivity. Qed.

Lemma nearest_even_round_half_even m e k :
  0 <= k -> nearest_even (F2Q m e) (round_half_even m k) (e + k).
Proof.
  intro Hk.
  pose proof (round_half_even_bounds k Hk m) as B.
  pose proof (round_half_even_tie k Hk m) as T.
  set (z := round_half_even m k) in *.
  pose proof (bpow_pos e) as He.
  assert (Hd : 0 < 2 ^ k) by (apply Z.pow_pos_nonneg; lia).
  assert (D : (F2Q z (e + k) - F2Q m e == inject_Z (z * 2 ^ k - m) * bpow e)%Q).
  { unfold F2Q. rewrite bpow_add, (Qmult_comm (bpow e)), Qmult_assoc.
    rewrite <- bpow_Z, <- inject_Z_mult by assumption.
    unfold Zminus. rewrite inject_Z_plus, inject_Z_opp. ring. }
  assert (U : (bpow (e + k) == inject_Z (2 ^ k) * bpow e)%Q).
  { rewrite bpow_add, bpow_Z by assumption. ring. }
  unfold nearest_even. rewrite D, U, Qabs_Qmult, (Qabs_pos (bpow e)) by lra.
  rewrite Qabs_inject_Z.
  assert (P : (2 * (inject_Z (Z.abs (z * 2 ^ k - m)) * bpow e)
               == inject_Z (2 * Z.abs (z * 2 ^ k - m)) * bpow e)%Q).
  { rewrite inject_Z_mult. change (inject_Z 2) with 2%Q. ring. }
  rewrite P. split.
  - apply Qmult_le_compat_r; [rewrite <- Zle_Qle; lia|lra].
  - intro Heq. apply T.
    assert (Hne : ~ (bpow e == 0)%Q) by (intro Hz; rewrite Hz in He; inversion He).
    apply (proj1 (Qmult_inj_r _ _ _ Hne)) in Heq.
    apply (proj1 (inject_Z_injective _ _)) in Heq.
    rewrite Z.abs_mul. exact Heq.
Qed.

(** ** The rounding of [SpecFloat] *)

Lemma digits2_pos_bounds (p : positive) :
  2 ^ (Zpos (digits2_pos p) - 1) <= Zpos p < 2 ^ Zpos (digits2_pos p).
Proof.
  induction p as [p IH|p IH|]; cbn [digits2_pos].
  - rewrite Pos2Z.inj_succ.
    replace (Z.succ (Zpos (digits2_pos p)) - 1) with (Z.succ (Zpos (digits2_pos p) - 1)) by lia.
    rewrite !Z.pow_succ_r by lia. lia.
  - rewrite Pos2Z.inj_succ.
    replace (Z.succ (Zpos (digits2_pos p)) - 1) with (Z.succ (Zpos (digits2_pos p) - 1)) by lia.
    rewrite !Z.pow_succ_r by lia. lia.
  - cbn. lia.
Qed.

(** The number of binary digits is characterised by its bounds. *)
Lemma digits2_pos_unique (p : positive) (d : Z) :
  2 ^ (d - 1) <= Zpos p < 2 ^ d -> Zpos (digits2_pos p) = d.
Proof.
  intros [Hlo Hhi]. pose proof (digits2_pos_bounds p) as [Blo Bhi].
  assert (Hd : 0 < d).
  { destruct (Z_lt_le_dec 0 d) as [|Hn]; [assumption|].
    destruct (Z.eq_dec d 0) as [->|]; [cbn in Hhi; lia|].
    rewrite (Z.pow_neg_r 2 d) in Hhi by lia. lia. }
  destruct (Z.lt_trichotomy (Zpos (digits2_pos p)) d) as [L|[L|L]]; [exfalso| assumption|exfalso].
  - assert (2 ^ Zpos (digits2_pos p) <= 2 ^ (d - 1)) by (apply Z.pow_le_mono_r; lia). lia.
  - assert (2 ^ d <= 2 ^ (Zpos (digits2_pos p) - 1)) by (apply Z.pow_le_mono_r; lia). lia.
Qed.

Lemma iter_pos_nat {A} (f : A -> A) (p : positive) (x : A) :
  iter_pos f p x = Nat.iter (Pos.to_nat p) f x.
Proof.
  revert x; induction p as [p IH|p IH|]; intro x; cbn [iter_pos].
  - rewrite !IH, Pos2Nat.inj_xI, <- Nat.iter_add.
    replace (S (2 * Pos.to_nat p)) with (S (Pos.to_nat p + Pos.to_nat p))%nat by lia.
    rewrite Nat.iter_succ_r. reflexivity.
  - rewrite !IH, Pos2Nat.inj_xO, <- Nat.iter_add.
    replace (2 * Pos.to_nat p)%nat with (Pos.to_nat p + Pos.to_nat p)%nat by lia.
    reflexivity.
  - reflexivity.
Qed.

Lemma shr_1_nonneg (m : Z) (r s : bool) :
  0 <= m ->
  shr_1 {| shr_m := m; shr_r := r; shr_s := s |}
  = {| shr_m := m / 2; shr_r := Z.odd m; shr_s := r || s |}.
Proof.
  intro H. rewrite <- Z.div2_div.
  destruct m as [|[p|p|]|p]; try reflexivity. lia.
Qed.

Lemma iter_shr_1 (n : nat) (m : Z) (r s : bool) :
  0 <= m ->
  Nat.iter (S n) shr_1 {| shr_m := m; shr_r := r; shr_s := s |}
  = {| shr_m := m / 2 ^ Z.of_nat (S n);
       shr_r := Z.odd (m / 2 ^ Z.of_nat n);
       shr_s := negb (m mod 2 ^ Z.of_nat n =? 0) || (r || s) |}.
Proof.
  intro Hm. induction n as [|n IH].
  - cbn [Nat.iter]. rewrite shr_1_nonneg by assumption.
    change (2 ^ Z.of_nat 1) with 2. change (2 ^ Z.of_nat 0) with 1.
    rewrite Z.div_1_r, Z.mod_1_r. reflexivity.
  - change (Nat.iter (S (S n)) shr_1 ?x) with (shr_1 (Nat.iter (S n) shr_1 x)).
    rewrite IH, shr_1_nonneg by (apply Z.div_pos; [assumption|apply Z.pow_pos_nonneg; lia]).
    assert (Hp : 0 < 2 ^ Z.of_nat n) by (apply Z.pow_pos_nonneg; lia).
    assert (E1 : m / 2 ^ Z.of_nat (S n) / 2 = m / 2 ^ Z.of_nat (S (S n))).
    { rewrite Z.div_div by lia. f_equal.
      rewrite (Nat2Z.inj_succ (S n)), Z.pow_succ_r by lia. lia. }
    assert (E2 : Z.odd (m / 2 ^ Z.of_nat n) || (negb (m mod 2 ^ Z.of_nat n =? 0) || (r || s))
                 = negb (m mod 2 ^ Z.of_nat (S n) =? 0) || (r || s)).
    { rewrite (Nat2Z.inj_succ n), Z.pow_succ_r by lia.
      rewrite (Z.mul_comm 2), Z.rem_mul_r by lia.
      rewrite Zmod_odd.
      pose proof (Z.mod_pos_bound m (2 ^ Z.of_nat n) Hp).
      destruct (Z.odd (m / 2 ^ Z.of_nat n));
        destruct (Z.eqb_spec (m mod 2 ^ Z.of_nat n) 0) as [E0|E0];
        match goal with |- context [?a + ?b =? 0] => destruct (Z.eqb_spec (a + b) 0) end;
        try lia; reflexivity. }
    rewrite E1, E2. reflexivity.
Qed.

Lemma shr_round (m e : Z) (n : positive) :
  0 <= m ->
  let mrs := fst (shr (shr_record_of_loc m loc_Exact) e (Zpos n)) in
  snd (shr (shr_record_of_loc m loc_Exact) e (Zpos n)) = e + Zpos n
  /\ round_nearest_even (shr_m mrs) (loc_of_shr_record mrs) = round_half_even m (Zpos n).
Proof.
  intro Hm. cbn [shr shr_record_of_loc fst snd]. split; [reflexivity|].
  rewrite iter_pos_nat.
  destruct (Pos2Nat.is_succ n) as [k Hk]. rewrite Hk, iter_shr_1 by assumption.
  assert (En : Zpos n = Z.succ (Z.of_nat k)) by lia.
  cbn [shr_m loc_of_shr_record orb]. rewrite orb_false_r.
  unfold round_half_even. rewrite En, <- Nat2Z.inj_succ.
  assert (Hp : 0 < 2 ^ Z.of_nat k) by (apply Z.pow_pos_nonneg; lia).
  assert (Hd : 2 ^ Z.of_nat (S k) = 2 ^ Z.of_nat k * 2)
    by (rewrite Nat2Z.inj_succ, Z.pow_succ_r; lia).
  rewrite Hd at 2 3. rewrite Z.rem_mul_r, Zmod_odd by lia.
  pose proof (Z.mod_pos_bound m (2 ^ Z.of_nat k) Hp) as B.
  destruct (Z.odd (m / 2 ^ Z.of_nat k));
    destruct (Z.eqb_spec (m mod 2 ^ Z.of_nat k) 0) as [E0|E0]; cbn [negb];
    match goal with |- context [?a ?= ?b] => destruct (Z.compare_spec a b) end;
    try lia; reflexivity.
Qed.

Lemma prec_val : prec = 53.
Proof. reflexivity. Qed.
Lemma emax_val : emax = 1024.
Proof. reflexivity. Qed.

(** The exponent binary64 gives to a number of magnitude [mag]. *)
Definition fexp64 (mag : Z) : Z := fexp prec emax mag.

Lemma fexp64_eq mag : fexp64 mag = Z.max (mag - 53) (-1074).
Proof. reflexivity. Qed.

(** The float with sign [s] and value [M * 2 ^ E], for [0 <= M <= 2 ^ 53]. *)
Definition pack (s : bool) (M E : Z) : spec_float :=
  if M =? 0 then S754_zero s
  else if M <? 2 ^ 53
       then (if E <=? 971 then S754_finite s (Z.to_pos M) E else S754_infinity s)
       else (if E + 1 <=? 971 then S754_finite s (Z.to_pos (2 ^ 52)) (E + 1)
             else S754_infinity s).

Lemma digits_le_53 (p : positive) : Zpos p < 2 ^ 53 -> Zpos (digits2_pos p) <= 53.
Proof.
  intro H. pose proof (digits2_pos_bounds p) as [Blo _].
  destruct (Z_le_gt_dec (Zpos (digits2_pos p)) 53) as [|G]; [assumption|exfalso].
  assert (2 ^ 53 <= 2 ^ (Zpos (digits2_pos p) - 1)) by (apply Z.pow_le_mono_r; lia). lia.
Qed.

Lemma binary_round_aux_pack (s : bool) (m : positive) (e : Z) :
  let E := fexp64 (Zpos (digits2_pos m) + e) in
  e <= E ->
  binary_round_aux prec emax s (Zpos m) e loc_Exact
  = pack s (round_half_even (Zpos m) (E - e)) E.
Proof.
  intros E HE.
  pose proof (digits2_pos_bounds m) as [Dlo Dhi].
  set (d := Zpos (digits2_pos m)) in *.
  assert (EE : E = Z.max (d + e - 53) (-1074)) by reflexivity.
  set (M := round_half_even (Zpos m) (E - e)).
  (* the first shift *)
  assert (S1 : shr_fexp prec emax (Zpos m) e loc_Exact
               = (fst (shr_fexp prec emax (Zpos m) e loc_Exact), E)
               /\ round_nearest_even
                    (shr_m (fst (shr_fexp prec emax (Zpos m) e loc_Exact)))
                    (loc_of_shr_record (fst (shr_fexp prec emax (Zpos m) e loc_Exact))) = M).
  { unfold shr_fexp. cbn [Zdigits2]. fold d. change (fexp prec emax (d + e)) with E.
    subst M. destruct (E - e) as [|n|n] eqn:En; [| |lia].
    - cbn [shr shr_record_of_loc fst shr_m loc_of_shr_record round_nearest_even].
      split; [f_equal; lia|].
      unfold round_half_even. change (2 ^ 0) with 1.
      rewrite Z.mod_1_r, Z.div_1_r. reflexivity.
    - destruct (shr_round (Zpos m) e n ltac:(lia)) as [H1 H2].
      split; [|exact H2].
      rewrite (surjective_pairing (shr _ _ _)) at 1. f_equal. rewrite H1. lia. }
  destruct S1 as [S1 S2].
  unfold binary_round_aux. rewrite S1, S2.
  (* the bound on the rounded mantissa *)
  assert (HM : 0 <= M <= 2 ^ 53).
  { subst M. split.
    - rewrite <- (round_half_even_exact (E - e) ltac:(lia) 0).
      apply round_half_even_mono; lia.
    - set (j := Z.max (d - (E - e)) 0).
      assert (Hj : 0 <= j <= 53) by lia.
      assert (Zpos m <= 2 ^ j * 2 ^ (E - e)).
      { rewrite <- Z.pow_add_r by lia.
        assert (2 ^ d <= 2 ^ (j + (E - e))) by (apply Z.pow_le_mono_r; lia). lia. }
      assert (round_half_even (Zpos m) (E - e) <= 2 ^ j).
      { rewrite <- (round_half_even_exact (E - e) ltac:(lia) (2 ^ j)).
        apply round_half_even_mono; lia. }
      assert (2 ^ j <= 2 ^ 53) by (apply Z.pow_le_mono_r; lia). lia. }
  unfold pack, shr_fexp.
  destruct (Z.eqb_spec M 0) as [M0|M0].
  - rewrite M0. cbn [Zdigits2 Z.add].
    replace (fexp prec emax E - E) with (Z.max (E - 53) (-1074) - E) by reflexivity.
    destruct (Z.max (E - 53) (-1074) - E) eqn:Sh; try lia; reflexivity.
  - destruct M as [|pM|pM]; [lia| |lia].
    cbn [Zdigits2].
    replace (fexp prec emax (Zpos (digits2_pos pM) + E) - E)
      with (Z.max (Zpos (digits2_pos pM) + E - 53) (-1074) - E) by reflexivity.
    destruct (Z.ltb_spec (Zpos pM) (2 ^ 53)) as [L|L].
    + pose proof (digits_le_53 pM L).
      destruct (Z.max (Zpos (digits2_pos pM) + E - 53) (-1074) - E) eqn:Sh; try lia;
        cbn [shr shr_record_of_loc shr_m]; reflexivity.
    + assert (EM : Zpos pM = 2 ^ 53) by lia.
      assert (Zpos (digits2_pos pM) = 54).
      { apply digits2_pos_unique. rewrite EM. split; [reflexivity|].
        apply Z.pow_lt_mono_r; lia. }
      replace (Z.max (Zpos (digits2_pos pM) + E - 53) (-1074) - E) with 1 by lia.
      injection EM as ->. reflexivity.
Qed.

(** The mantissa binary64 rounds [m * 2 ^ e] to, at the exponent
    [fexp64 (digits m + e)]. *)
Definition rnd_exp (m : positive) (e : Z) : Z := fexp64 (Zpos (digits2_pos m) + e).

Definition rnd_mant (m : positive) (e : Z) : Z :=
  if e <=? rnd_exp m e then round_half_even (Zpos m) (rnd_exp m e - e)
  else Zpos m * 2 ^ (e - rnd_exp m e).

Lemma round_half_even_0 m : round_half_even m 0 = m.
Proof.
  unfold round_half_even. change (2 ^ 0) with 1.
  rewrite Z.mod_1_r, Z.div_1_r. reflexivity.
Qed.

Lemma iter_xO (m d : positive) : Zpos (Pos.iter xO m d) = Zpos m * 2 ^ Zpos d.
Proof.
  change (Pos.iter xO m d) with (shift_pos d m).
  rewrite shift_pos_correct, Zpower_pos_nat, Zpower_nat_Z, positive_nat_Z. lia.
Qed.

Lemma digits2_pos_shift (m : positive) (j : Z) (p : positive) :
  0 <= j -> Zpos p = Zpos m * 2 ^ j ->
  Zpos (digits2_pos p) = Zpos (digits2_pos m) + j.
Proof.
  intros Hj Hp. apply digits2_pos_unique. rewrite Hp.
  pose proof (digits2_pos_bounds m) as [Dlo Dhi].
  assert (0 < 2 ^ j) by (apply Z.pow_pos_nonneg; lia).
  replace (Zpos (digits2_pos m) + j - 1) with (Zpos (digits2_pos m) - 1 + j) by lia.
  rewrite !Z.pow_add_r by lia. nia.
Qed.

Lemma binary_round_pack (s : bool) (m : positive) (e : Z) :
  binary_round prec emax s m e = pack s (rnd_mant m e) (rnd_exp m e).
Proof.
  unfold binary_round, rnd_mant.
  change (fexp prec emax (Zpos (digits2_pos m) + e)) with (rnd_exp m e).
  set (E := rnd_exp m e).
  destruct (Z.leb_spec e E) as [L|L].
  - assert (A : shl_align m e E = (m, e)).
    { unfold shl_align. destruct (E - e) eqn:En; try lia; reflexivity. }
    rewrite A. apply binary_round_aux_pack. fold (rnd_exp m e). lia.
  - assert (A : shl_align m e E = (Pos.iter xO m (Z.to_pos (e - E)), E)).
    { unfold shl_align. destruct (E - e) as [| |n] eqn:En; try lia.
      repeat f_equal. lia. }
    rewrite A. set (n := Z.to_pos (e - E)).
    assert (Hn : Zpos n = e - E) by lia.
    assert (Dg : Zpos (digits2_pos (Pos.iter xO m n)) = Zpos (digits2_pos m) + Zpos n)
      by (apply digits2_pos_shift; [lia|apply iter_xO]).
    assert (EE : fexp64 (Zpos (digits2_pos (Pos.iter xO m n)) + E) = E).
    { rewrite Dg. unfold E at 2, rnd_exp. f_equal. lia. }
    rewrite binary_round_aux_pack; rewrite EE; [|lia].
    rewrite Z.sub_diag, round_half_even_0, iter_xO, Hn. reflexivity.
Qed.

Lemma rnd_exp_eq m e : rnd_exp m e = Z.max (Zpos (digits2_pos m) + e - 53) (-1074).
Proof. reflexivity. Qed.

Lemma rnd_mant_bounds (m : positive) (e : Z) :
  0 <= rnd_mant m e <= 2 ^ 53
  /\ (-1074 < rnd_exp m e -> 2 ^ 52 <= rnd_mant m e).
Proof.
  pose proof (digits2_pos_bounds m) as [Dlo Dhi].
  pose proof (rnd_exp_eq m e) as EE.
  unfold rnd_mant. set (E := rnd_exp m e) in *. set (d := Zpos (digits2_pos m)) in *.
  destruct (Z.leb_spec e E) as [L|L].
  - assert (Hk : 0 <= E - e) by lia.
    repeat split.
    + rewrite <- (round_half_even_exact (E - e) Hk 0).
      apply round_half_even_mono; lia.
    + set (j := Z.max (d - (E - e)) 0).
      assert (Hj : 0 <= j <= 53) by lia.
      assert (Zpos m <= 2 ^ j * 2 ^ (E - e)).
      { rewrite <- Z.pow_add_r by lia.
        assert (2 ^ d <= 2 ^ (j + (E - e))) by (apply Z.pow_le_mono_r; lia). lia. }
      assert (round_half_even (Zpos m) (E - e) <= 2 ^ j).
      { rewrite <- (round_half_even_exact (E - e) Hk (2 ^ j)).
        apply round_half_even_mono; lia. }
      assert (2 ^ j <= 2 ^ 53) by (apply Z.pow_le_mono_r; lia). lia.
    + intro Hn. assert (Ed : E - e = d - 53) by lia.
      rewrite <- (round_half_even_exact (E - e) Hk (2 ^ 52)).
      apply round_half_even_mono; [lia|].
      rewrite <- Z.pow_add_r by lia. replace (52 + (E - e)) with (d - 1) by lia. lia.
  - assert (Hk : 0 < e - E) by lia.
    assert (0 < 2 ^ (e - E)) by (apply Z.pow_pos_nonneg; lia).
    repeat split.
    + nia.
    + assert (Zpos m * 2 ^ (e - E) < 2 ^ (d + (e - E))) by (rewrite Z.pow_add_r by lia; nia).
      assert (2 ^ (d + (e - E)) <= 2 ^ 53) by (apply Z.pow_le_mono_r; lia). lia.
    + intro Hn. assert (Ed : e - E = 53 - d) by lia.
      assert (2 ^ (d - 1) * 2 ^ (e - E) = 2 ^ 52).
      { rewrite <- Z.pow_add_r by lia. f_equal. lia. }
      nia.
Qed.

Lemma rnd_mant_nearest (m : positive) (e : Z) :
  nearest_even (F2Q (Zpos m) e) (rnd_mant m e) (rnd_exp m e).
Proof.
  unfold rnd_mant. set (E := rnd_exp m e).
  destruct (Z.leb_spec e E) as [L|L].
  - replace E with (e + (E - e)) at 2 by lia.
    apply nearest_even_round_half_even. lia.
  - assert (Q : (F2Q (Zpos m) e == F2Q (Zpos m * 2 ^ (e - E)) E)%Q).
    { rewrite <- (F2Q_shift (Zpos m) e (e - E)) by lia.
      replace (e - (e - E)) with E by lia. reflexivity. }
    unfold nearest_even. rewrite Q. apply nearest_even_exact.
Qed.

Lemma F2Q_pow2 k e : 0 <= k -> (F2Q (2 ^ k) e == bpow (k + e))%Q.
Proof. intro H. unfold F2Q. rewrite bpow_Z, bpow_add by assumption. reflexivity. Qed.

Lemma F2Q_mag (m : positive) (e : Z) :
  (bpow (Zpos (digits2_pos m) + e - 1) <= F2Q (Zpos m) e)%Q
  /\ (F2Q (Zpos m) e < bpow (Zpos (digits2_pos m) + e))%Q.
Proof.
  pose proof (digits2_pos_bounds m) as [Dlo Dhi].
  set (d := Zpos (digits2_pos m)) in *.
  assert (Hd : 1 <= d) by (unfold d; lia).
  split.
  - replace (d + e - 1) with ((d - 1) + e) by lia.
    rewrite <- F2Q_pow2 by lia. apply F2Q_le. assumption.
  - rewrite <- F2Q_pow2 by lia. unfold F2Q.
    apply Qmult_lt_compat_r; [apply bpow_pos|]. rewrite <- Zlt_Qlt. assumption.
Qed.

(** Rounding to binary64 is monotone. *)
Theorem rnd_mono (m1 m2 : positive) (e1 e2 : Z) :
  (F2Q (Zpos m1) e1 <= F2Q (Zpos m2) e2)%Q ->
  (F2Q (rnd_mant m1 e1) (rnd_exp m1 e1) <= F2Q (rnd_mant m2 e2) (rnd_exp m2 e2))%Q.
Proof.
  intro Hv.
  pose proof (F2Q_mag m1 e1) as [Lo1 Hi1]. pose proof (F2Q_mag m2 e2) as [Lo2 Hi2].
  pose proof (rnd_mant_nearest m1 e1) as N1. pose proof (rnd_mant_nearest m2 e2) as N2.
  pose proof (rnd_mant_bounds m2 e2) as [_ Nm2].
  pose proof (rnd_exp_eq m1 e1) as EE1. pose proof (rnd_exp_eq m2 e2) as EE2.
  set (g1 := Zpos (digits2_pos m1) + e1) in *. set (g2 := Zpos (digits2_pos m2) + e2) in *.
  set (E1 := rnd_exp m1 e1) in *. set (E2 := rnd_exp m2 e2) in *.
  set (M1 := rnd_mant m1 e1) in *. set (M2 := rnd_mant m2 e2) in *.
  assert (Hg : g1 <= g2).
  { destruct (Z_le_gt_dec g1 g2) as [|G]; [assumption|exfalso].
    pose proof (bpow_le g2 (g1 - 1) ltac:(lia)). lra. }
  destruct (Z.eq_dec E1 E2) as [Eq|Ne].
  - rewrite <- Eq in *. apply F2Q_le. exact (nearest_even_mono _ _ _ _ _ Hv N1 N2).
  - assert (Lt : E1 < E2) by lia.
    set (X := Z.max g1 E1).
    assert (A : (F2Q M1 E1 <= bpow X)%Q).
    { assert (HX : (bpow X == F2Q (2 ^ (X - E1)) E1)%Q).
      { rewrite F2Q_pow2 by lia. replace (X - E1 + E1) with X by lia. reflexivity. }
      rewrite HX. apply F2Q_le.
      apply (nearest_even_mono (F2Q (Zpos m1) e1) (F2Q (2 ^ (X - E1)) E1) _ _ E1);
        [|assumption|apply nearest_even_exact].
      rewrite <- HX. pose proof (bpow_le g1 X ltac:(lia)). lra. }
    assert (B : (bpow (g2 - 1) <= F2Q M2 E2)%Q).
    { assert (HX : (bpow (g2 - 1) == F2Q (2 ^ 52) E2)%Q).
      { rewrite F2Q_pow2 by lia. replace (52 + E2) with (g2 - 1) by lia. reflexivity. }
      rewrite HX. apply F2Q_le. apply Nm2. lia. }
    pose proof (bpow_le X (g2 - 1) ltac:(lia)). lra.
Qed.

(** *** Packing *)

Lemma pack_finite s M E s' M' E' :
  0 <= M <= 2 ^ 53 ->
  pack s M E = S754_finite s' M' E' ->
  s' = s /\ (F2Q (Zpos M') E' == F2Q M E)%Q /\ E' <= 971.
Proof.
  intros HM. unfold pack.
  destruct (Z.eqb_spec M 0); [discriminate|].
  destruct (Z.ltb_spec M (2 ^ 53)).
  - destruct (Z.leb_spec E 971); [|discriminate].
    intro Hp; injection Hp as <- <- <-. rewrite Z2Pos.id by lia.
    split; [reflexivity|split; [reflexivity|lia]].
  - destruct (Z.leb_spec (E + 1) 971); [|discriminate].
    intro Hp; injection Hp as <- <- <-.
    split; [reflexivity|split; [|lia]].
    assert (EM : M = 2 ^ 53) by lia. rewrite EM.
    rewrite <- (F2Q_shift (2 ^ 52) (E + 1) 1) by lia.
    replace (E + 1 - 1) with E by lia. reflexivity.
Qed.

Lemma pack_zero s M E s' : pack s M E = S754_zero s' -> M = 0.
Proof.
  unfold pack. destruct (Z.eqb_spec M 0); [auto|].
  destruct (M <? 2 ^ 53); [destruct (E <=? 971)|destruct (E + 1 <=? 971)]; discriminate.
Qed.

Lemma pack_valid s M E :
  0 <= M <= 2 ^ 53 -> -1074 <= E -> (-1074 < E -> 2 ^ 52 <= M) ->
  valid_binary (pack s M E) = true.
Proof.
  intros HM HE Hn. unfold pack.
  destruct (Z.eqb_spec M 0); [reflexivity|].
  destruct (Z.ltb_spec M (2 ^ 53)).
  - destruct (Z.leb_spec E 971) as [L|L]; [|reflexivity].
    cbn [SpecFloat.valid_binary]. unfold bounded, canonical_mantissa.
    apply andb_true_intro; split; [|apply Z.leb_le; exact L].
    apply Z.eqb_eq.
    change (fexp prec emax ?x) with (Z.max (x - 53) (-1074)).
    destruct M as [|pM|pM]; try lia. cbn [Z.to_pos].
    pose proof (digits_le_53 pM ltac:(lia)).
    destruct (Z.eq_dec E (-1074)) as [->|]; [lia|].
    assert (Zpos (digits2_pos pM) = 53)
      by (apply digits2_pos_unique; split; [apply Hn|]; lia).
    lia.
  - destruct (Z.leb_spec (E + 1) 971) as [L|L]; [|reflexivity].
    cbn [SpecFloat.valid_binary]. unfold bounded, canonical_mantissa.
    apply andb_true_intro; split; [|apply Z.leb_le; exact L].
    apply Z.eqb_eq.
    change (fexp prec emax ?x) with (Z.max (x - 53) (-1074)).
    change (Zpos (digits2_pos (Z.to_pos (2 ^ 52)))) with 53. lia.
Qed.

Lemma binary_round_valid s m e : valid_binary (binary_round prec emax s m e) = true.
Proof.
  rewrite binary_round_pack. pose proof (rnd_mant_bounds m e) as [B N].
  apply pack_valid; [assumption| |assumption].
  rewrite rnd_exp_eq. lia.
Qed.



Lemma SF2Q_finite s m e : SF2Q (S754_finite s m e) = F2Q (cond_Zopp s (Zpos m)) e.
Proof. reflexivity. Qed.

Lemma F2Q_opp m e : (F2Q (- m) e == - F2Q m e)%Q.
Proof. unfold F2Q. rewrite inject_Z_opp. ring. Qed.

Lemma F2Q_0 e : (F2Q 0 e == 0)%Q.
Proof. unfold F2Q. change (inject_Z 0) with 0%Q. ring. Qed.

Lemma F2Q_exp0 m : (F2Q m 0 == inject_Z m)%Q.
Proof. unfold F2Q, bpow. change (2 ^ 0)%Q with 1%Q. ring. Qed.

Lemma nearest_even_opp v M E : nearest_even v M E -> nearest_even (- v) (- M) E.
Proof.
  unfold nearest_even.
  assert (Q : (Qabs (F2Q (- M) E - - v) == Qabs (F2Q M E - v))%Q).
  { rewrite F2Q_opp.
    setoid_replace (- F2Q M E - - v)%Q with (- (F2Q M E - v))%Q by ring.
    apply Qabs_opp. }
  rewrite Q, Z.even_opp. tauto.
Qed.

(** [round] returns the integer nearest to the float, the even one on a tie. *)
Lemma float_round_nearest (x : float) (q : Z) :
  float_round x = Ok q -> nearest_even (float_value x) q 0.
Proof.
  unfold float_round, float_value.
  destruct (Prim2SF x) as [s|s| |s m e]; try discriminate.
  - intro H; injection H as <-. cbn [SF2Q].
    pose proof (nearest_even_exact 0 0) as N. unfold nearest_even in *.
    rewrite (F2Q_0 0) in N at 2 4. exact N.
  - intro H; injection H as <-. rewrite SF2Q_finite.
    assert (N : nearest_even (F2Q (Zpos m) e)
                  (if 0 <=? e then Zpos m * 2 ^ e else round_half_even (Zpos m) (- e)) 0).
    { destruct (Z.leb_spec 0 e) as [L|L].
      - pose proof (nearest_even_exact (Zpos m * 2 ^ e) 0) as N. unfold nearest_even in *.
        rewrite <- (F2Q_shift (Zpos m) e e), Z.sub_diag by assumption. exact N.
      - pose proof (nearest_even_round_half_even (Zpos m) e (- e) ltac:(lia)) as N.
        replace (e + - e) with 0 in N by lia. exact N. }
    destruct s; cbn [cond_Zopp].
    + unfold nearest_even. rewrite (F2Q_opp (Zpos m) e). apply nearest_even_opp, N.
    + exact N.
Qed.


(** ** Primitive floats through their specification *)

Lemma valid_canonical s m e :
  valid_binary (S754_finite s m e) = true -> rnd_exp m e = e /\ e <= 971.
Proof.
  cbn [SpecFloat.valid_binary]. unfold bounded, canonical_mantissa.
  intro H. apply andb_prop in H as [H1 H2].
  apply Z.eqb_eq in H1. apply Z.leb_le in H2. split; [exact H1|exact H2].
Qed.

Lemma Prim2SF_canonical x s m e :
  Prim2SF x = S754_finite s m e -> rnd_exp m e = e /\ e <= 971.
Proof.
  intro H. apply (valid_canonical s). rewrite <- H. apply Prim2SF_valid.
Qed.

Lemma digits2_pos_mul (m1 m2 : positive) :
  Zpos (digits2_pos m1) + Zpos (digits2_pos m2) - 1 <= Zpos (digits2_pos (m1 * m2)).
Proof.
  pose proof (digits2_pos_bounds m1) as [L1 _].
  pose proof (digits2_pos_bounds m2) as [L2 _].
  pose proof (digits2_pos_bounds (m1 * m2)) as [_ H].
  set (d1 := Zpos (digits2_pos m1)) in *. set (d2 := Zpos (digits2_pos m2)) in *.
  set (D := Zpos (digits2_pos (m1 * m2))) in *.
  assert (1 <= d1 /\ 1 <= d2 /\ 1 <= D) by (unfold d1, d2, D; lia).
  destruct (Z_le_gt_dec (d1 + d2 - 1) D) as [|G]; [assumption|exfalso].
  assert (2 ^ D <= 2 ^ (d1 - 1 + (d2 - 1))) by (apply Z.pow_le_mono_r; lia).
  rewrite Z.pow_add_r in * by lia.
  rewrite Pos2Z.inj_mul in H. nia.
Qed.

Lemma SFmul_pack sx mx ex sy my ey :
  valid_binary (S754_finite sx mx ex) = true ->
  valid_binary (S754_finite sy my ey) = true ->
  SFmul prec emax (S754_finite sx mx ex) (S754_finite sy my ey)
  = pack (xorb sx sy) (rnd_mant (mx * my) (ex + ey)) (rnd_exp (mx * my) (ex + ey)).
Proof.
  intros Vx Vy.
  apply valid_canonical in Vx as [Cx _]. apply valid_canonical in Vy as [Cy _].
  rewrite rnd_exp_eq in Cx, Cy.
  pose proof (digits2_pos_mul mx my) as D.
  assert (A : ex + ey <= rnd_exp (mx * my) (ex + ey)) by (rewrite rnd_exp_eq; lia).
  cbn [SFmul]. rewrite binary_round_aux_pack by exact A.
  unfold rnd_mant. fold (rnd_exp (mx * my) (ex + ey)).
  destruct (Z.leb_spec (ex + ey) (rnd_exp (mx * my) (ex + ey))); [reflexivity|lia].
Qed.

Lemma mul_pack x y sx mx ex sy my ey :
  Prim2SF x = S754_finite sx mx ex -> Prim2SF y = S754_finite sy my ey ->
  Prim2SF (x * y) = pack (xorb sx sy) (rnd_mant (mx * my) (ex + ey)) (rnd_exp (mx * my) (ex + ey)).
Proof.
  intros Hx Hy. rewrite mul_spec, Hx, Hy. apply SFmul_pack.
  - rewrite <- Hx; apply Prim2SF_valid.
  - rewrite <- Hy; apply Prim2SF_valid.
Qed.




(** The rounded value of a binary64 number. *)
Definition rnd_value (m : positive) (e : Z) : Q := F2Q (rnd_mant m e) (rnd_exp m e).



Lemma Prim2SF_0 : Prim2SF 0 = S754_zero false.
Proof. reflexivity. Qed.
Lemma Prim2SF_1 : Prim2SF 1 = S754_finite false 4503599627370496 (-52).
Proof. reflexivity. Qed.
Lemma Prim2SF_infinity : Prim2SF infinity = S754_infinity false.
Proof. reflexivity. Qed.

Lemma rnd_value_1 : (rnd_value 1 0 == 1)%Q.
Proof. reflexivity. Qed.

Lemma rnd_value_mono m1 e1 m2 e2 :
  (F2Q (Zpos m1) e1 <= F2Q (Zpos m2) e2)%Q -> (rnd_value m1 e1 <= rnd_value m2 e2)%Q.
Proof. apply rnd_mono. Qed.

Lemma rnd_value_ge_1 m e : (1 <= F2Q (Zpos m) e)%Q -> (1 <= rnd_value m e)%Q.
Proof.
  intro H. rewrite <- rnd_value_1. apply rnd_value_mono.
  rewrite F2Q_exp0. exact H.
Qed.

Lemma rnd_mant_pos m e : (1 <= F2Q (Zpos m) e)%Q -> 0 < rnd_mant m e.
Proof.
  intro H. apply rnd_value_ge_1 in H. unfold rnd_value in H.
  pose proof (rnd_mant_bounds m e) as [[B _] _].
  destruct (Z.eq_dec (rnd_mant m e) 0) as [Z|]; [|lia].
  rewrite Z, F2Q_0 in H. lra.
Qed.

(** A float that is at least 1 is the positive infinity or a positive finite
    number whose value is at least 1. *)
Lemma leb_one g :
  (1 <=? g)%float = true ->
  Prim2SF g = S754_infinity false
  \/ exists m e, Prim2SF g = S754_finite false m e /\ (1 <= F2Q (Zpos m) e)%Q.
Proof.
  rewrite leb_spec, Prim2SF_1.
  destruct (Prim2SF g) as [s|s| |s m e] eqn:G; unfold SFleb; cbn [SFcompare].
  - discriminate.
  - destruct s; [discriminate|]. intros _. left; reflexivity.
  - discriminate.
  - destruct s; [discriminate|]. intro H. right. exists m, e. split; [reflexivity|].
    apply Prim2SF_canonical in G as [C _]. rewrite rnd_exp_eq in C.
    pose proof (digits2_pos_bounds m) as [Dlo Dhi].
    destruct (Z.compare_spec (-52) e) as [Ee|Ee|Ee]; [| |discriminate].
    + subst e.
      assert (Hm : 2 ^ 52 <= Zpos m).
      { change (Pos.compare_cont Eq 4503599627370496 m)
          with (4503599627370496 ?= m)%positive in H.
        change (2 ^ 52) with 4503599627370496.
        destruct (Pos.compare_spec 4503599627370496 m); [lia|lia|discriminate]. }
      apply (F2Q_le _ _ (-52)) in Hm. rewrite F2Q_pow2 in Hm by lia. exact Hm.
    + assert (Hd : Zpos (digits2_pos m) = 53) by lia.
      rewrite Hd in Dlo.
      apply (F2Q_le _ _ e) in Dlo. rewrite F2Q_pow2 in Dlo by lia.
      pose proof (bpow_le 0 (53 - 1 + e) ltac:(lia)) as B.
      change (bpow 0) with 1%Q in B. lra.
Qed.

Lemma ltb_zero f :
  (0 <? f)%float = true ->
  Prim2SF f = S754_infinity false \/ exists m e, Prim2SF f = S754_finite false m e.
Proof.
  rewrite ltb_spec, Prim2SF_0.
  destruct (Prim2SF f) as [s|s| |s m e]; unfold SFltb; cbn [SFcompare]; try discriminate.
  - destruct s; [discriminate|]. left; reflexivity.
  - destruct s; [discriminate|]. right; eauto.
Qed.

Lemma pack_not_nan s M E : pack s M E <> S754_nan.
Proof.
  unfold pack. destruct (M =? 0); [discriminate|].
  destruct (M <? 2 ^ 53); [destruct (E <=? 971)|destruct (E + 1 <=? 971)]; discriminate.
Qed.

(** What a correctly rounded positive number at least 1 looks like as a
    primitive float, unless it overflows. *)
Lemma SF2Prim_binary_round (m : positive) (e : Z) :
  (1 <= F2Q (Zpos m) e)%Q ->
  (exists s, binary_round prec emax false m e = S754_infinity s)
  \/ exists mp ep,
      Prim2SF (SF2Prim (binary_round prec emax false m e)) = S754_finite false mp ep
      /\ binary_round prec emax false m e = S754_finite false mp ep
      /\ (F2Q (Zpos mp) ep == rnd_value m e)%Q.
Proof.
  intro H. pose proof (binary_round_valid false m e) as V.
  pose proof (rnd_mant_pos m e H) as P. pose proof (rnd_mant_bounds m e) as [B _].
  rewrite Prim2SF_SF2Prim by exact V.
  rewrite binary_round_pack in *.
  destruct (pack false (rnd_mant m e) (rnd_exp m e)) as [s|s| |s mp ep] eqn:K.
  - apply pack_zero in K. lia.
  - left; eauto.
  - exfalso; exact (pack_not_nan _ _ _ K).
  - right. apply pack_finite in K as (-> & Q & _); [|assumption].
    exists mp, ep. repeat split. exact Q.
Qed.

Lemma int_to_float_0 : int_to_float 0 = Ok 0%float.
Proof. reflexivity. Qed.

Lemma int_to_float_pos (z : Z) (y : float) :
  0 < z -> int_to_float z = Ok y ->
  exists m e, Prim2SF y = S754_finite false m e
              /\ (F2Q (Zpos m) e == rnd_value (Z.to_pos z) 0)%Q.
Proof.
  intros Hz. destruct z as [|p|p]; try lia. cbn [Z.to_pos].
  unfold int_to_float. cbn [binary_normalize].
  assert (H1 : (1 <= F2Q (Zpos p) 0)%Q).
  { rewrite F2Q_exp0. change 1%Q with (inject_Z 1). rewrite <- Zle_Qle. lia. }
  destruct (SF2Prim_binary_round p 0 H1) as [[s K]|(mp & ep & K1 & K2 & K3)].
  - rewrite K. discriminate.
  - rewrite K2 in *. intro E; injection E as <-. eauto.
Qed.


(** The double nearest to an integer is an integer. *)
Lemma rnd_value_int (p : positive) : exists k, (rnd_value p 0 == inject_Z k)%Q.
Proof.
  unfold rnd_value, rnd_mant. set (E := rnd_exp p 0).
  destruct (Z.leb_spec 0 E) as [L|L].
  - exists (round_half_even (Zpos p) (E - 0) * 2 ^ E).
    rewrite <- F2Q_exp0. rewrite <- (F2Q_shift _ E E), Z.sub_diag by assumption. reflexivity.
  - exists (Zpos p). rewrite <- F2Q_exp0.
    rewrite <- (F2Q_shift (Zpos p) 0 (0 - E)) by lia.
    replace (0 - (0 - E)) with E by lia. reflexivity.
Qed.

Lemma float_integer_complete (y : float) (m : positive) (e k : Z) :
  Prim2SF y = S754_finite false m e -> (F2Q (Zpos m) e == inject_Z k)%Q ->
  float_integer y = Some k.
Proof.
  intros Hy Hk. unfold float_integer. rewrite Hy. cbn [cond_Zopp].
  destruct (Z.leb_spec 0 e) as [L|L].
  - f_equal. apply inject_Z_injective.
    rewrite <- Hk, <- F2Q_exp0, <- (F2Q_shift _ e e), Z.sub_diag by assumption. reflexivity.
  - assert (Hp : 0 < 2 ^ (- e)) by (apply Z.pow_pos_nonneg; lia).
    assert (Em : Zpos m = k * 2 ^ (- e)).
    { apply inject_Z_injective.
      pose proof (F2Q_shift k 0 (- e) ltac:(lia)) as Sh.
      replace (0 - - e) with e in Sh by lia.
      rewrite F2Q_exp0, <- Hk in Sh. unfold F2Q in Sh.
      pose proof (bpow_pos e) as He.
      assert (Hne : ~ (bpow e == 0)%Q) by (intro Z0; rewrite Z0 in He; inversion He).
      apply (proj1 (Qmult_inj_r _ _ _ Hne)) in Sh. symmetry. exact Sh. }
    rewrite Em, Z.mod_mul, Z.div_mul by lia. reflexivity.
Qed.


Lemma SFcompare_refl_finite s m e :
  SFcompare (S754_finite s m e) (S754_finite s m e) = Some Eq.
Proof.
  cbn [SFcompare]. rewrite Z.compare_refl, Pos.compare_cont_refl.
  destruct s; reflexivity.
Qed.

Lemma SFeqb_finite_eq m1 e1 m2 e2 :
  SFeqb (S754_finite false m1 e1) (S754_finite false m2 e2) = true -> m1 = m2 /\ e1 = e2.
Proof.
  unfold SFeqb. cbn [SFcompare].
  destruct (Z.compare_spec e1 e2) as [Ee|Ee|Ee]; try discriminate.
  change (Pos.compare_cont Eq m1 m2) with (m1 ?= m2)%positive.
  destruct (Pos.compare_spec m1 m2) as [Em|Em|Em]; try discriminate.
  intros _. split; assumption.
Qed.

(** How the tests of [float_pow] answer on a positive finite float. *)
Lemma finite_pos_tests x m e :
  Prim2SF x = S754_finite false m e ->
  is_nan x = false /\ is_infinity x = false /\ (x =? 0)%float = false
  /\ (x <? 0)%float = false /\ abs x = x.
Proof.
  intro H.
  assert (A : abs x = x).
  { apply Prim2SF_inj. rewrite abs_spec, H. reflexivity. }
  unfold is_nan, is_infinity. rewrite A. rewrite !eqb_spec. rewrite ltb_spec. rewrite H.
  rewrite Prim2SF_0. rewrite Prim2SF_infinity.
  unfold SFeqb, SFltb. rewrite SFcompare_refl_finite. cbn [SFcompare].
  repeat split.
Qed.

Lemma Prim2SF_infinity_inv x : Prim2SF x = S754_infinity false -> x = infinity.
Proof. intro H. apply Prim2SF_inj. rewrite H. symmetry. apply Prim2SF_infinity. Qed.

Lemma eqb_one g m e :
  Prim2SF g = S754_finite false m e -> (g =? 1)%float = true -> g = 1%float.
Proof.
  intros H. rewrite eqb_spec, H, Prim2SF_1. intro E.
  apply SFeqb_finite_eq in E as [-> ->]. apply Prim2SF_inj. rewrite H. symmetry. apply Prim2SF_1.
Qed.

(** ** Positive floats and their products *)

(** A float that is [+inf] or positive and finite. *)
Definition pos_ext (x : float) : Prop :=
  Prim2SF x = S754_infinity false \/ exists m e, Prim2SF x = S754_finite false m e.

(** A float that is [+inf], or positive and finite with value [v]. *)
Definition pos_val (x : float) (v : Q) : Prop :=
  Prim2SF x = S754_infinity false
  \/ exists m e, Prim2SF x = S754_finite false m e /\ (F2Q (Zpos m) e == v)%Q.

Lemma mul_infinite_l x y :
  Prim2SF x = S754_infinity false -> pos_ext y -> Prim2SF (x * y) = S754_infinity false.
Proof.
  intros Hx [Hy|(m & e & Hy)]; rewrite mul_spec, Hx, Hy; reflexivity.
Qed.

Lemma mul_infinite_r x y :
  pos_ext x -> Prim2SF y = S754_infinity false -> Prim2SF (x * y) = S754_infinity false.
Proof.
  intros [Hx|(m & e & Hx)] Hy; rewrite mul_spec, Hx, Hy; reflexivity.
Qed.

Lemma pos_val_ext x v : pos_val x v -> pos_ext x.
Proof. intros [H|(m & e & H & _)]; [left|right]; eauto. Qed.


(** ** Powers *)

(** The rounded value of [(mg * 2 ^ eg) ** n]. *)
Definition pow_value (mg : positive) (eg n : Z) : Q :=
  rnd_value (Z.to_pos (Zpos mg ^ n)) (eg * n).

Lemma F2Q_pow (m : positive) (e n : Z) :
  0 <= n -> (F2Q (Zpos m ^ n) (e * n) == F2Q (Zpos m) e ^ n)%Q.
Proof.
  intro Hn. unfold F2Q. rewrite Qmult_power.
  rewrite Zpower_Qpower by assumption.
  unfold bpow. rewrite Qpower_mult. reflexivity.
Qed.

Lemma pos_pow_pos (m : positive) (n : Z) : 0 <= n -> 0 < Zpos m ^ n.
Proof. intro H. apply Z.pow_pos_nonneg; lia. Qed.

Lemma pow_value_mono mg eg n1 n2 :
  (1 <= F2Q (Zpos mg) eg)%Q -> 0 <= n1 <= n2 ->
  (pow_value mg eg n1 <= pow_value mg eg n2)%Q.
Proof.
  intros H1 Hn. unfold pow_value. apply rnd_value_mono.
  pose proof (pos_pow_pos mg n1 ltac:(lia)). pose proof (pos_pow_pos mg n2 ltac:(lia)).
  rewrite !Z2Pos.id by assumption.
  rewrite !F2Q_pow by lia.
  apply Qpower_le_compat_l; [lia|assumption].
Qed.

Lemma pow_exact_ge_1 mg eg n :
  (1 <= F2Q (Zpos mg) eg)%Q -> 0 <= n ->
  (1 <= F2Q (Zpos (Z.to_pos (Zpos mg ^ n))) (eg * n))%Q.
Proof.
  intros H1 Hn. rewrite Z2Pos.id by (apply pos_pow_pos; assumption).
  rewrite F2Q_pow by assumption. apply Qpower_1_le; assumption.
Qed.

Lemma pow_value_0 mg eg : (pow_value mg eg 0 == 1)%Q.
Proof. unfold pow_value. rewrite Z.mul_0_r. exact rnd_value_1. Qed.

Lemma pow_value_of_one mg eg n :
  (F2Q (Zpos mg) eg == 1)%Q -> 0 <= n -> (pow_value mg eg n == 1)%Q.
Proof.
  intros H1 Hn. unfold pow_value.
  assert (E : (F2Q (Zpos (Z.to_pos (Zpos mg ^ n))) (eg * n) == F2Q 1 0)%Q).
  { rewrite Z2Pos.id by (apply pos_pow_pos; assumption).
    rewrite F2Q_pow, H1, Qpower_1, F2Q_exp0 by assumption. reflexivity. }
  rewrite <- rnd_value_1. apply Qle_antisym; apply rnd_value_mono; rewrite E; apply Qle_refl.
Qed.

(** ** The exponent [float(i)] *)

(** The integer [float(i)] is equal to, for an index [i] of the loop. *)
Definition exponent (i : Z) : Z :=
  match int_to_float i with
  | Ok y => match float_integer y with Some n => n | None => 0 end
  | Err _ => 0
  end.

Lemma exponent_pos i y :
  0 < i -> int_to_float i = Ok y ->
  exists m e, Prim2SF y = S754_finite false m e
              /\ float_integer y = Some (exponent i)
              /\ (inject_Z (exponent i) == rnd_value (Z.to_pos i) 0)%Q
              /\ 0 < exponent i.
Proof.
  intros Hi Hy.
  destruct (int_to_float_pos i y Hi Hy) as (m & e & Hm & Hv).
  destruct (rnd_value_int (Z.to_pos i)) as [k Hk].
  assert (FI : float_integer y = Some k).
  { apply (float_integer_complete y m e k Hm). rewrite Hv. exact Hk. }
  assert (Ex : exponent i = k) by (unfold exponent; rewrite Hy, FI; reflexivity).
  exists m, e. rewrite Ex. repeat split; try assumption.
  - symmetry; exact Hk.
  - assert (G1 : (1 <= rnd_value (Z.to_pos i) 0)%Q).
    { apply rnd_value_ge_1. rewrite F2Q_exp0, Z2Pos.id by assumption.
      change 1%Q with (inject_Z 1). rewrite <- Zle_Qle. lia. }
    rewrite Hk in G1. change 1%Q with (inject_Z 1) in G1. rewrite <- Zle_Qle in G1. lia.
Qed.

Lemma exponent_0 : exponent 0 = 0.
Proof. reflexivity. Qed.


Lemma pack_infinity_sign s M E s' : pack s M E = S754_infinity s' -> s' = s.
Proof.
  unfold pack. destruct (M =? 0); [discriminate|].
  destruct (M <? 2 ^ 53); [destruct (E <=? 971)|destruct (E + 1 <=? 971)];
    try discriminate; intro H; injection H as <-; reflexivity.
Qed.

Lemma is_infinity_infinity : is_infinity infinity = true.
Proof. reflexivity. Qed.

Lemma pos_val_1 v : (v == 1)%Q -> pos_val 1 v.
Proof.
  intro H. right. exists 4503599627370496%positive, (-52). split; [exact Prim2SF_1|].
  rewrite H. reflexivity.
Qed.

(** [pow_exact] on a base at least 1: it overflows to [+inf] or is the
    rounded power. *)
Lemma pow_exact_value g mg eg n :
  Prim2SF g = S754_finite false mg eg -> (1 <= F2Q (Zpos mg) eg)%Q -> 0 < n ->
  (is_infinity (pow_exact g n) = true)
  \/ (is_infinity (pow_exact g n) = false
      /\ exists mp ep, Prim2SF (pow_exact g n) = S754_finite false mp ep
                       /\ (F2Q (Zpos mp) ep == pow_value mg eg n)%Q).
Proof.
  intros Hg H1 Hn. unfold pow_exact. rewrite Hg.
  rewrite <- (Z2Pos.id (Zpos mg ^ n)) by (apply pos_pow_pos; lia).
  cbn [binary_normalize].
  set (P := Z.to_pos (Zpos mg ^ n)).
  destruct (SF2Prim_binary_round P (eg * n) (pow_exact_ge_1 mg eg n H1 ltac:(lia)))
    as [[s K]|(mp & ep & K1 & K2 & K3)].
  - left. rewrite K. rewrite binary_round_pack in K. apply pack_infinity_sign in K. subst s.
    exact is_infinity_infinity.
  - right. destruct (finite_pos_tests _ _ _ K1) as (_ & I & _). split; [exact I|].
    exists mp, ep. split; [exact K1|exact K3].
Qed.

Section Powers.

Variable libm_pow : float -> float -> float.

Lemma float_pow_exponent_0 g : float_pow libm_pow g 0 = Ok (Real (Float 1)).
Proof. reflexivity. Qed.

Lemma float_pow_finite g y mg eg i :
  Prim2SF g = S754_finite false mg eg -> 0 < i -> int_to_float i = Ok y ->
  float_pow libm_pow g y
  = if (g =? 1)%float then Ok (Real (Float 1))
    else if is_infinity (pow_exact g (exponent i)) then Err OverflowError
         else Ok (Real (Float (pow_exact g (exponent i)))).
Proof.
  intros Hg Hi Hy.
  destruct (exponent_pos i y Hi Hy) as (my & ey & My & FI & _ & Pn).
  destruct (finite_pos_tests _ _ _ Hg) as (G1 & G2 & G3 & G4 & G5).
  destruct (finite_pos_tests _ _ _ My) as (Y1 & Y2 & Y3 & Y4 & Y5).
  unfold float_pow. rewrite Y3, G1, Y1, Y2, G2, G3, G4, G5. cbn [andb].
  unfold c_pow. rewrite FI.
  destruct (Z.ltb_spec 0 (exponent i)); [|lia].
  destruct (g =? 1)%float; reflexivity.
Qed.

Lemma ltb_zero_finite y m e : Prim2SF y = S754_finite false m e -> (0 <? y)%float = true.
Proof. intro H. rewrite ltb_spec, H, Prim2SF_0. reflexivity. Qed.

Lemma float_pow_infinite y i :
  0 < i -> int_to_float i = Ok y ->
  float_pow libm_pow infinity y = Ok (Real (Float infinity)).
Proof.
  intros Hi Hy.
  destruct (exponent_pos i y Hi Hy) as (my & ey & My & _).
  destruct (finite_pos_tests _ _ _ My) as (Y1 & Y2 & Y3 & Y4 & Y5).
  unfold float_pow. rewrite Y3, Y1, Y2, (ltb_zero_finite _ _ _ My).
  change (is_nan infinity) with false. change (is_infinity infinity) with true.
  change (abs infinity) with infinity. cbv iota.
  destruct (is_odd_integer y); reflexivity.
Qed.

(** The powers of a float rate that is at least 1: each is [+inf] or has a
    value that grows with the exponent. *)
Lemma float_rate_powers g :
  (1 <=? g)%float = true ->
  exists V : Z -> Q,
    (forall n1 n2, 0 <= n1 <= n2 -> (V n1 <= V n2)%Q)
    /\ forall i y v, 0 <= i -> int_to_float i = Ok y -> float_pow libm_pow g y = Ok v ->
         exists p, v = Real (Float p) /\ pos_val p (V (exponent i)).
Proof.
  intro Hg. apply leb_one in Hg as [Hg|(mg & eg & Hg & H1)].
  - apply Prim2SF_infinity_inv in Hg. subst g.
    exists (fun _ => 1%Q). split; [intros; apply Qle_refl|].
    intros i y v Hi Hy Hv.
    destruct (Z.eq_dec i 0) as [->|Ni].
    + rewrite int_to_float_0 in Hy. injection Hy as <-.
      rewrite float_pow_exponent_0 in Hv. injection Hv as <-.
      eexists; split; [reflexivity|apply pos_val_1; reflexivity].
    + rewrite (float_pow_infinite y i ltac:(lia) Hy) in Hv. injection Hv as <-.
      eexists; split; [reflexivity|]. left. exact Prim2SF_infinity.
  - exists (pow_value mg eg). split; [intros; apply pow_value_mono; assumption|].
    intros i y v Hi Hy Hv.
    destruct (Z.eq_dec i 0) as [->|Ni].
    + rewrite int_to_float_0 in Hy. injection Hy as <-.
      rewrite float_pow_exponent_0 in Hv. injection Hv as <-.
      eexists; split; [reflexivity|]. rewrite exponent_0. apply pos_val_1, pow_value_0.
    + destruct (exponent_pos i y ltac:(lia) Hy) as (_ & _ & _ & _ & _ & Pn).
      rewrite (float_pow_finite g y mg eg i Hg ltac:(lia) Hy) in Hv.
      destruct (g =? 1)%float eqn:G1.
      * injection Hv as <-. eexists; split; [reflexivity|].
        apply pos_val_1, pow_value_of_one; [|lia].
        apply (eqb_one _ _ _ Hg) in G1. subst g.
        rewrite Prim2SF_1 in Hg. injection Hg as <- <-. reflexivity.
      * destruct (pow_exact_value g mg eg (exponent i) Hg H1 Pn) as [I|(I & mp & ep & K & Q)];
          rewrite I in Hv; [discriminate|].
        injection Hv as <-. eexists; split; [reflexivity|]. right; eauto.
Qed.

(** The powers of an int rate that is at least 1, as floats. *)
Lemma int_rate_power z i fb :
  1 <= z -> 0 <= i -> int_to_float (z ^ i) = Ok fb ->
  pos_val fb (rnd_value (Z.to_pos (z ^ i)) 0).
Proof.
  intros Hz Hi H.
  assert (0 < z ^ i) by (apply Z.pow_pos_nonneg; lia).
  destruct (int_to_float_pos (z ^ i) fb H0 H) as (m & e & Hm & Hv). right; eauto.
Qed.

End Powers.

(** ** Growth of the table *)

(** [start_ms > 0] and [growth_rate >= 1], as Python compares them. *)
Definition start_positive (s : num) : bool :=
  match s with
  | Int a => 0 <? a
  | Float f => (0 <? f)%float
  end.

Definition rate_at_least_one (r : num) : bool :=
  match r with
  | Int z => 1 <=? z
  | Float g => (1 <=? g)%float
  end.

Section Growth.

Variable libm_pow : float -> float -> float.




Lemma range_nonneg n i : In i (range n) -> 0 <= i.
Proof.
  rewrite range_seq, in_map_iff. intros (k & <- & _). lia.
Qed.




End Growth.

(** ** Exceptions of the expansion *)

Section Exceptions.

Variable libm_pow : float -> float -> float.

Lemma int_to_float_error z e : int_to_float z = Err e -> e = OverflowError.
Proof.
  unfold int_to_float. destruct (binary_normalize _ _ _ _ _); congruence.
Qed.

Lemma float_round_error x e :
  float_round x = Err e -> e = OverflowError \/ e = ValueError.
Proof.
  unfold float_round. destruct (Prim2SF x); intro H; try discriminate;
    injection H as <-; auto.
Qed.

(** A float raised to the float of an index of the loop is a float, unless
    the power overflows. *)
Lemma float_pow_index x y i :
  0 <= i -> int_to_float i = Ok y ->
  (exists p, float_pow libm_pow x y = Ok (Real (Float p)))
  \/ float_pow libm_pow x y = Err OverflowError.
Proof.
  intros Hi Hy. destruct (Z.eq_dec i 0) as [->|Ni].
  - rewrite int_to_float_0 in Hy. injection Hy as <-. left. eexists. reflexivity.
  - destruct (exponent_pos i y ltac:(lia) Hy) as (my & ey & My & FI & _ & Pn).
    destruct (finite_pos_tests _ _ _ My) as (Y1 & Y2 & Y3 & Y4 & Y5).
    unfold float_pow. rewrite Y3, Y1, Y2, Y4, FI.
    repeat match goal with
           | |- context [if ?c then _ else _] => destruct c
           end; eauto.
Qed.

Lemma quantum_error s r i e :
  0 <= i -> quantum libm_pow s (Real r) i = Err e ->
  e = OverflowError \/ e = ValueError.
Proof.
  intros Hi H. unfold quantum, raw_value in H.
  assert (P : (exists v, py_pow libm_pow (Real r) (Int i) = Ok (Real v))
              \/ py_pow libm_pow (Real r) (Int i) = Err OverflowError).
  { destruct r as [z|g]; cbn [py_pow].
    - destruct (Z.leb_spec 0 i); [|lia]. left; eauto.
    - destruct (int_to_float i) as [y|e'] eqn:E; cbn [rbind].
      + destruct (float_pow_index g y i Hi E) as [(p & ->)| ->]; eauto.
      + right. f_equal. exact (int_to_float_error _ _ E). }
  destruct P as [(v & P)|P]; rewrite P in H; cbn [rbind] in H; [|left; congruence].
  destruct s as [a|f], v as [b|p]; cbn [py_mul] in H.
  - discriminate.
  - destruct (int_to_float a) as [fa|e'] eqn:E; cbn in H.
    + exact (float_round_error _ _ H).
    + left. apply int_to_float_error in E. congruence.
  - destruct (int_to_float b) as [fb|e'] eqn:E; cbn in H.
    + exact (float_round_error _ _ H).
    + left. apply int_to_float_error in E. congruence.
  - exact (float_round_error _ _ H).
Qed.

Lemma traverse_error {A B} (f : A -> result B) xs e :
  traverse f xs = Err e -> exists x, In x xs /\ f x = Err e.
Proof.
  induction xs as [|x xs IH]; cbn; [discriminate|].
  destruct (f x) as [y|e'] eqn:Hx; cbn.
  - destruct (traverse f xs) as [ys|e'] eqn:Hxs; cbn; [discriminate|].
    intro H. destruct (IH H) as (x' & I & F). eauto.
  - intro H. injection H as ->. eauto.
Qed.

Lemma expand_error levels s r e :
  expand libm_pow levels s (Real r) = Err e -> e = OverflowError \/ e = ValueError.
Proof.
  intro H. apply traverse_error in H as (i & I & H).
  exact (quantum_error s r i e (range_nonneg _ _ I) H).
Qed.

Lemma mul_pos_not_nan F P : pos_ext F -> pos_ext P -> Prim2SF (F * P) <> S754_nan.
Proof.
  intros HF [HP|(mp & ep & HP)].
  - rewrite (mul_infinite_r F P HF HP). discriminate.
  - destruct HF as [HF|(mf & ef & HF)].
    + rewrite (mul_infinite_l F P HF); [discriminate|right; eauto].
    + rewrite (mul_pack F P _ _ _ _ _ _ HF HP). apply pack_not_nan.
Qed.

Lemma float_round_pos F P : pos_ext F -> pos_ext P -> float_round (F * P) <> Err ValueError.
Proof.
  intros HF HP. pose proof (mul_pos_not_nan F P HF HP) as N.
  unfold float_round. destruct (Prim2SF (F * P)); congruence.
Qed.

(** With a positive start and a rate that is at least 1 no product is NaN:
    only the overflow is left. *)
Lemma quantum_error_growing s r i e :
  start_positive s = true -> rate_at_least_one r = true -> 0 <= i ->
  quantum libm_pow s (Real r) i = Err e -> e = OverflowError.
Proof.
  intros Hs Hr Hi H.
  destruct (quantum_error s r i e Hi H) as [E|E]; [exact E|exfalso]. subst e.
  assert (PW : forall p, py_pow libm_pow (Real r) (Int i) = Ok (Real (Float p)) -> pos_ext p).
  { intros p. destruct r as [z|g]; cbn [py_pow].
    - destruct (Z.leb_spec 0 i); [|lia]. discriminate.
    - cbn in Hr. destruct (float_rate_powers libm_pow g Hr) as (V & _ & VP).
      destruct (int_to_float i) as [y|e'] eqn:E; cbn [rbind]; [|discriminate].
      intro P. destruct (VP i y _ Hi E P) as (p' & [= <-] & Hp).
      exact (pos_val_ext _ _ Hp). }
  assert (PS : match s with
               | Int a => forall fa, int_to_float a = Ok fa -> pos_ext fa
               | Float f => pos_ext f
               end).
  { destruct s as [a|f]; cbn in Hs.
    - intros fa E. apply Z.ltb_lt in Hs.
      destruct (int_to_float_pos a fa Hs E) as (m & e & Hm & _). right; eauto.
    - apply ltb_zero, Hs. }
  unfold quantum, raw_value in H.
  destruct (py_pow libm_pow (Real r) (Int i)) as [[[b|p]|]|e] eqn:P; cbn [rbind] in H.
  - destruct s as [a|f]; cbn [py_mul] in H; [discriminate|].
    destruct r as [z|g]; cbn [py_pow] in P.
    + destruct (Z.leb_spec 0 i); [|lia]. injection P as <-.
      cbn in Hr. apply Z.leb_le in Hr.
      destruct (int_to_float (z ^ i)) as [fb|e'] eqn:E; cbn in H.
      * apply (float_round_pos f fb PS); [|exact H].
        exact (pos_val_ext _ _ (int_rate_power z i fb Hr Hi E)).
      * apply int_to_float_error in E. congruence.
    + destruct (int_to_float i) as [y|e'] eqn:E; cbn [rbind] in P; [|discriminate].
      destruct (float_pow_index g y i Hi E) as [(p & Q)|Q]; congruence.
  - specialize (PW p eq_refl).
    destruct s as [a|f]; cbn [py_mul] in H.
    + destruct (int_to_float a) as [fa|e'] eqn:E; cbn in H.
      * exact (float_round_pos fa p (PS fa eq_refl) PW H).
      * apply int_to_float_error in E. congruence.
    + exact (float_round_pos f p PS PW H).
  - exfalso. destruct r as [z|g]; cbn [py_pow] in P.
    + destruct (Z.leb_spec 0 i); [discriminate|lia].
    + destruct (int_to_float i) as [y|e'] eqn:E; cbn [rbind] in P; [|discriminate].
      destruct (float_pow_index g y i Hi E) as [(p & Q)|Q]; congruence.
  - destruct r as [z|g]; cbn [py_pow] in P.
    + destruct (Z.leb_spec 0 i); [discriminate|lia].
    + destruct (int_to_float i) as [y|e'] eqn:E; cbn [rbind] in P.
      * destruct (float_pow_index g y i Hi E) as [(p & Q)|Q]; congruence.
      * apply int_to_float_error in E. congruence.
Qed.

Lemma expand_error_growing levels s r e :
  start_positive s = true -> rate_at_least_one r = true ->
  expand libm_pow levels s (Real r) = Err e -> e = OverflowError.
Proof.
  intros Hs Hr H. apply traverse_error in H as (i & I & H).
  exact (quantum_error_growing s r i e Hs Hr (range_nonneg _ _ I) H).
Qed.

End Exceptions.

(** ** Whole runs of the generator *)

(** CPython 3.11 (and the security releases before it) refuses by default to
    convert an [int] of more than 4300 digits to text, with ValueError;
    [str] above converts every [int].  What is said below of the text printed
    for a list, or for the target, is said of values within that limit. *)
Definition int_max_str_digits : Z := 4300.

Definition printable (z : Z) : bool := Z.abs z <? 10 ^ int_max_str_digits.

Definition printable_num (n : num) : bool :=
  match n with
  | Int z => printable z
  | Float _ => true
  end.

Lemma traverse_map {A B} (f : A -> result B) (g : A -> B) xs :
  (forall x, In x xs -> f x = Ok (g x)) -> traverse f xs = Ok (map g xs).
Proof.
  induction xs as [|x xs IH]; intro H; [reflexivity|].
  cbn. rewrite (H x (or_introl eq_refl)). cbn.
  rewrite IH by (intros; apply H; right; assumption). reflexivity.
Qed.

Section Runs.

Variable libm_pow : float -> float -> float.

(** X5.  With an [int] start and an [int] rate and no target, nothing is
    converted to a float: the run prints nothing, cannot fail, and returns
    exactly [start * rate ** i] for [i] in [range(levels)]. *)
Theorem generate_int_exact levels a z :
  generate_exponential_quanta libm_pow levels (Int a) (Some (Int z)) None
  = ([], Ok (map (fun i => a * z ^ i) (range levels))).
Proof.
  rewrite generate_no_target. f_equal. unfold expand.
  apply traverse_map. intros i Hi. apply range_nonneg in Hi.
  unfold quantum, raw_value, py_pow. destruct (Z.leb_spec 0 i); [reflexivity|lia].
Qed.

(** X4.  In every mode, with or without [target_max_ms] and for [levels] of
    any sign, a list that [generate_exponential_quanta] returns has
    [max(0, levels)] elements. *)
Theorem generate_length_any_mode levels start_ms growth_rate target_max_ms out quanta :
  generate_exponential_quanta libm_pow levels start_ms growth_rate target_max_ms
    = (out, Ok quanta) ->
  len quanta = Z.max 0 levels.
Proof.
  rewrite generate_expand.
  destruct (resolve_rate _ _ _ _ _) as [o [rate|e]]; cbn; [|discriminate].
  destruct (expand libm_pow levels start_ms rate) as [qs|e] eqn:E; [|discriminate].
  intro H. injection H as _ <-. apply traverse_length in E.
  unfold len. rewrite E, range_length. lia.
Qed.

(** X6.  In target mode with a printable target, the notice of the derived
    rate is printed exactly when the rate could be derived, and it is all
    that is printed: the loop prints nothing, and the notice stays printed
    when the loop then raises. *)
Theorem generate_output levels start_ms growth_rate target :
  printable_num target = true ->
  fst (generate_exponential_quanta libm_pow levels start_ms growth_rate (Some target))
  = match snd (resolve_rate libm_pow levels start_ms growth_rate (Some target)) with
    | Ok rate => [InfoCalculated target rate]
    | Err _ => []
    end.
Proof.
  intros _. rewrite generate_expand. unfold resolve_rate.
  destruct (py_truediv target start_ms) as [ratio|e]; [|reflexivity].
  destruct (py_truediv (Int 1) (Int (levels - 1))) as [ex|e]; [|reflexivity].
  cbn [lift bind fst snd app].
  destruct (py_pow libm_pow (Real (Float ratio)) (Float ex)) as [rate|e]; [|reflexivity].
  cbn. destruct (expand libm_pow levels start_ms rate); reflexivity.
Qed.

(** X7.  When the raw value of a level is the float [x], the level is an
    integer nearest to [x]: it differs from [x] by at most one half, and when
    it differs by exactly one half it is the even neighbour. *)
Theorem quantum_nearest start_ms growth_rate i x q :
  raw_value libm_pow start_ms growth_rate i = Ok (Real (Float x)) ->
  quantum libm_pow start_ms growth_rate i = Ok q ->
  (2 * Qabs (inject_Z q - float_value x) <= 1)%Q
  /\ ((2 * Qabs (inject_Z q - float_value x) == 1)%Q -> Z.even q = true).
Proof.
  intros Hx Hq. unfold quantum in Hq. rewrite Hx in Hq. cbn in Hq.
  apply float_round_nearest in Hq. unfold nearest_even in Hq.
  rewrite F2Q_exp0 in Hq. exact Hq.
Qed.


(** X9.  With no target, the only exceptions the generator can raise are
    OverflowError (an [int] too large for a float, a power or a product that
    overflows) and ValueError (rounding a NaN); with a positive [start_ms] and
    a rate that is at least 1 only OverflowError is left. *)
Theorem generate_errors levels start_ms growth_rate out e :
  generate_exponential_quanta libm_pow levels start_ms growth_rate None = (out, Err e) ->
  (e = OverflowError \/ e = ValueError)
  /\ (start_positive start_ms = true ->
      (forall rate, growth_rate = Some rate -> rate_at_least_one rate = true) ->
      e = OverflowError).
Proof.
  intro H. rewrite generate_no_target in H.
  destruct growth_rate as [r|]; injection H as _ H; split.
  - exact (expand_error libm_pow levels start_ms r e H).
  - intros Hs Hr. exact (expand_error_growing libm_pow levels start_ms r e Hs (Hr r eq_refl) H).
  - exact (expand_error libm_pow levels start_ms (Float 1.15) e H).
  - intros Hs _. exact (expand_error_growing libm_pow levels start_ms (Float 1.15) e Hs eq_refl H).
Qed.

End Runs.

(** ** Exact products and conversions *)

Lemma canonical_mantissa_bound s m e :
  valid_binary (S754_finite s m e) = true -> Zpos m < 2 ^ 53.
Proof.
  intro V. apply valid_canonical in V as [C _]. rewrite rnd_exp_eq in C.
  pose proof (digits2_pos_bounds m) as [_ Hi].
  assert (Zpos (digits2_pos m) <= 53) by lia.
  assert (2 ^ Zpos (digits2_pos m) <= 2 ^ 53) by (apply Z.pow_le_mono_r; lia).
  lia.
Qed.

(** Scaling the mantissa by a power of two and the exponent back does not
    change what a canonical float rounds to: itself. *)
Lemma rnd_shift (m c : positive) (e j : Z) :
  0 <= j -> Zpos c = 2 ^ j -> rnd_exp m e = e ->
  rnd_exp (m * c) (e - j) = e /\ rnd_mant (m * c) (e - j) = Zpos m.
Proof.
  intros Hj Hc He.
  assert (D : Zpos (digits2_pos (m * c)) = Zpos (digits2_pos m) + j).
  { apply digits2_pos_shift; [assumption|]. rewrite Pos2Z.inj_mul, Hc. reflexivity. }
  assert (E : rnd_exp (m * c) (e - j) = e).
  { rewrite rnd_exp_eq, D. rewrite rnd_exp_eq in He. lia. }
  split; [exact E|].
  unfold rnd_mant. rewrite E.
  destruct (Z.leb_spec (e - j) e); [|lia].
  replace (e - (e - j)) with j by lia.
  rewrite Pos2Z.inj_mul, Hc. apply round_half_even_exact. assumption.
Qed.

Lemma pack_canonical s m e :
  valid_binary (S754_finite s m e) = true -> pack s (Zpos m) e = S754_finite s m e.
Proof.
  intro V. pose proof (canonical_mantissa_bound s m e V) as B.
  apply valid_canonical in V as [_ L]. unfold pack.
  destruct (Z.eqb_spec (Zpos m) 0); [lia|].
  destruct (Z.ltb_spec (Zpos m) (2 ^ 53)); [|lia].
  destruct (Z.leb_spec e 971); [|lia]. reflexivity.
Qed.

Lemma mul_one (x : float) : (x * 1)%float = x.
Proof.
  apply Prim2SF_inj. rewrite mul_spec, Prim2SF_1.
  destruct (Prim2SF x) as [s|s| |s m e] eqn:X.
  - cbn. destruct s; reflexivity.
  - cbn. destruct s; reflexivity.
  - reflexivity.
  - assert (V : valid_binary (S754_finite s m e) = true) by (rewrite <- X; apply Prim2SF_valid).
    rewrite SFmul_pack; [|exact V|rewrite <- Prim2SF_1; apply Prim2SF_valid].
    destruct (rnd_shift m 4503599627370496 e 52 ltac:(lia) eq_refl
                (proj1 (valid_canonical s m e V))) as [E M].
    replace (e + -52) with (e - 52) by lia. rewrite E, M.
    rewrite xorb_false_r. apply pack_canonical, V.
Qed.

Lemma nearest_even_int (k q : Z) : nearest_even (inject_Z k) q 0 -> q = k.
Proof.
  intros [B _]. rewrite F2Q_exp0 in B.
  unfold Qminus in B. rewrite <- inject_Z_opp, <- inject_Z_plus, Qabs_inject_Z in B.
  change 2%Q with (inject_Z 2) in B. rewrite <- inject_Z_mult in B.
  change (bpow 0) with (inject_Z 1) in B. rewrite <- Zle_Qle in B. lia.
Qed.

(** Rounding a float whose value is an integer gives that integer. *)
Lemma float_round_int x s m e k :
  Prim2SF x = S754_finite s m e -> (F2Q (cond_Zopp s (Zpos m)) e == inject_Z k)%Q ->
  float_round x = Ok k.
Proof.
  intros X V.
  destruct (float_round x) as [q|err] eqn:R.
  - f_equal. apply nearest_even_int.
    apply float_round_nearest in R. unfold float_value in R.
    rewrite X, SF2Q_finite in R. unfold nearest_even in *. rewrite <- V. exact R.
  - unfold float_round in R. rewrite X in R. discriminate.
Qed.

(** An [int] of at most 53 bits is a double. *)
Lemma rnd_value_small (p : positive) : Zpos p <= 2 ^ 53 -> (rnd_value p 0 == inject_Z (Zpos p))%Q.
Proof.
  intro Hp. unfold rnd_value, rnd_mant.
  pose proof (digits2_pos_bounds p) as [Dlo Dhi].
  pose proof (rnd_exp_eq p 0) as EE. set (E := rnd_exp p 0) in *.
  set (d := Zpos (digits2_pos p)) in *.
  assert (Hd : d <= 54).
  { destruct (Z_le_gt_dec d 54) as [|G]; [assumption|exfalso].
    assert (2 ^ 54 <= 2 ^ (d - 1)) by (apply Z.pow_le_mono_r; lia). lia. }
  destruct (Z.leb_spec 0 E) as [L|L].
  - assert (C : E = 0 \/ E = 1) by lia. destruct C as [-> | ->].
    + rewrite Z.sub_0_r, round_half_even_0. apply F2Q_exp0.
    + assert (d = 54) by lia.
      assert (Zpos p = 2 ^ 53).
      { replace (d - 1) with 53 in Dlo by lia. lia. }
      replace (Zpos p) with (2 ^ 52 * 2 ^ 1) by (rewrite H0; reflexivity).
      change (1 - 0) with 1.
      rewrite round_half_even_exact by lia.
      rewrite <- (F2Q_exp0 (2 ^ 52 * 2 ^ 1)).
      rewrite <- (F2Q_shift (2 ^ 52) 1 1) at 1 by lia. reflexivity.
  - rewrite <- F2Q_exp0.
    rewrite <- (F2Q_shift (Zpos p) 0 (0 - E)) by lia.
    replace (0 - (0 - E)) with E by lia. reflexivity.
Qed.

Lemma binary_round_small s (p : positive) :
  Zpos p <= 2 ^ 53 ->
  exists m e, binary_round prec emax s p 0 = S754_finite s m e
              /\ (F2Q (Zpos m) e == inject_Z (Zpos p))%Q.
Proof.
  intro Hp. rewrite binary_round_pack.
  pose proof (rnd_mant_bounds p 0) as [B _].
  pose proof (rnd_value_small p Hp) as V. unfold rnd_value in V.
  destruct (pack s (rnd_mant p 0) (rnd_exp p 0)) as [s'|s'| |s' m e] eqn:P.
  - apply pack_zero in P. rewrite P, F2Q_0 in V.
    change 0%Q with (inject_Z 0) in V. apply (proj1 (inject_Z_injective _ _)) in V. lia.
  - exfalso. unfold pack in P.
    destruct (Z.eqb_spec (rnd_mant p 0) 0); [discriminate|].
    pose proof (rnd_exp_eq p 0) as EE.
    pose proof (digits2_pos_bounds p) as [Dlo Dhi].
    assert (Zpos (digits2_pos p) <= 54).
    { destruct (Z_le_gt_dec (Zpos (digits2_pos p)) 54) as [|G]; [assumption|exfalso].
      assert (2 ^ 54 <= 2 ^ (Zpos (digits2_pos p) - 1)) by (apply Z.pow_le_mono_r; lia). lia. }
    destruct (rnd_mant p 0 <? 2 ^ 53).
    + destruct (Z.leb_spec (rnd_exp p 0) 971); [discriminate|lia].
    + destruct (Z.leb_spec (rnd_exp p 0 + 1) 971); [discriminate|lia].
  - exfalso. exact (pack_not_nan _ _ _ P).
  - destruct (pack_finite _ _ _ _ _ _ B P) as (-> & Q & _).
    exists m, e. split; [reflexivity|]. rewrite Q. exact V.
Qed.

Lemma int_to_float_small (a : Z) :
  Z.abs a <= 2 ^ 53 -> exists fa, int_to_float a = Ok fa /\ float_round fa = Ok a.
Proof.
  intro Ha. unfold int_to_float. destruct a as [|p|p]; cbn [binary_normalize].
  - exists 0%float. split; reflexivity.
  - destruct (binary_round_small false p ltac:(lia)) as (m & e & R & V).
    rewrite R. eexists. split; [reflexivity|].
    apply (float_round_int _ false m e).
    + rewrite Prim2SF_SF2Prim; [reflexivity|]. rewrite <- R. apply binary_round_valid.
    + exact V.
  - destruct (binary_round_small true p ltac:(lia)) as (m & e & R & V).
    rewrite R. eexists. split; [reflexivity|].
    apply (float_round_int _ true m e).
    + rewrite Prim2SF_SF2Prim; [reflexivity|]. rewrite <- R. apply binary_round_valid.
    + cbn [cond_Zopp]. rewrite F2Q_opp, V. rewrite <- inject_Z_opp. reflexivity.
Qed.

Section First.

Variable libm_pow : float -> float -> float.

(** Level 0: the rate is raised to 0, which is 1 whatever the rate is. *)
Lemma quantum_0 s r :
  quantum libm_pow s (Real r) 0
  = match s, r with
    | Int a, Int _ => Ok a
    | Int a, Float _ => fa <~ int_to_float a ;; float_round fa
    | Float f, _ => float_round f
    end.
Proof.
  unfold quantum, raw_value. destruct r as [z|g]; cbn [py_pow].
  - change (0 <=? 0) with true. cbn iota. rewrite Z.pow_0_r. cbn [rbind].
    destruct s as [a|f]; cbn [py_mul].
    + rewrite Z.mul_1_r. reflexivity.
    + change (int_to_float 1) with (Ok 1%float). cbn [rbind py_round]. rewrite mul_one. reflexivity.
  - rewrite int_to_float_0. cbn [rbind]. rewrite float_pow_exponent_0. cbn [rbind].
    destruct s as [a|f]; cbn [py_mul].
    + destruct (int_to_float a) as [fa|e]; cbn [rbind py_round]; [|reflexivity].
      rewrite mul_one. reflexivity.
    + cbn [rbind py_round]. rewrite mul_one. reflexivity.
Qed.

End First.

Lemma range_pos (n : Z) : 0 < n -> exists rest, range n = 0 :: rest.
Proof.
  intro H. rewrite range_seq.
  destruct (Z.to_nat n) as [|k] eqn:E; [lia|]. cbn. eauto.
Qed.

(** A float made from an [int] is a zero or finite. *)
Definition finite_or_zero (x : float) : Prop :=
  (exists s, Prim2SF x = S754_zero s) \/ exists s m e, Prim2SF x = S754_finite s m e.

Lemma SF2Prim_pack_finite s M E sf :
  0 <= M <= 2 ^ 53 -> -1074 <= E -> (-1074 < E -> 2 ^ 52 <= M) ->
  pack s M E = sf -> (forall s', sf <> S754_infinity s') ->
  finite_or_zero (SF2Prim sf).
Proof.
  intros HM HE HN P NI.
  assert (V : valid_binary sf = true) by (rewrite <- P; apply pack_valid; assumption).
  unfold finite_or_zero. rewrite (Prim2SF_SF2Prim _ V).
  destruct sf as [s'|s'| |s' m e].
  - left; eauto.
  - exfalso. exact (NI s' eq_refl).
  - exfalso. exact (pack_not_nan _ _ _ P).
  - right; eauto.
Qed.

Lemma binary_round_finite s p fa :
  match binary_round prec emax s p 0 with
  | S754_infinity _ => Err OverflowError
  | sf => Ok (SF2Prim sf)
  end = Ok fa ->
  finite_or_zero fa.
Proof.
  pose proof (rnd_mant_bounds p 0) as [B N]. pose proof (rnd_exp_eq p 0) as EE.
  remember (binary_round prec emax s p 0) as sf eqn:R. symmetry in R.
  rewrite binary_round_pack in R.
  assert (F : (forall s', sf <> S754_infinity s') -> finite_or_zero (SF2Prim sf)).
  { apply (SF2Prim_pack_finite s (rnd_mant p 0) (rnd_exp p 0)); try assumption. lia. }
  destruct sf; intro H; try discriminate; injection H as <-; apply F; intros; discriminate.
Qed.

Lemma int_to_float_finite a fa : int_to_float a = Ok fa -> finite_or_zero fa.
Proof.
  unfold int_to_float. destruct a as [|p|p]; cbn [binary_normalize].
  - intro H. injection H as <-. left. exists false. reflexivity.
  - apply binary_round_finite.
  - apply binary_round_finite.
Qed.

Lemma mul_finite_not_nan x y m e :
  finite_or_zero x -> Prim2SF y = S754_finite false m e -> Prim2SF (x * y) <> S754_nan.
Proof.
  intros [(s & X)|(s & mx & ex & X)] Y.
  - rewrite mul_spec, X, Y. discriminate.
  - rewrite (mul_pack x y _ _ _ _ _ _ X Y). apply pack_not_nan.
Qed.

(** What [round] gives for a float is far below the limit of [str]. *)
Lemma float_round_bound x q : float_round x = Ok q -> Z.abs q < 2 ^ 1024.
Proof.
  unfold float_round. destruct (Prim2SF x) as [s|s| |s m e] eqn:X; try discriminate.
  - intro H. injection H as <-. reflexivity.
  - intro H. apply (f_equal (fun r => match r with Ok z => z | Err _ => 0 end)) in H.
    cbv beta iota in H. subst q.
    assert (V : valid_binary (S754_finite s m e) = true) by (rewrite <- X; apply Prim2SF_valid).
    pose proof (canonical_mantissa_bound s m e V) as B.
    apply valid_canonical in V as [_ L].
    assert (A : 0 <= (if 0 <=? e then Zpos m * 2 ^ e else round_half_even (Zpos m) (- e))
                < 2 ^ 1024).
    { destruct (Z.leb_spec 0 e) as [P|P].
      - assert (0 < 2 ^ e) by (apply Z.pow_pos_nonneg; lia).
        assert (2 ^ e <= 2 ^ 971) by (apply Z.pow_le_mono_r; lia).
        replace (2 ^ 1024) with (2 ^ 53 * 2 ^ 971) by (rewrite <- Z.pow_add_r by lia; reflexivity).
        assert (0 < 2 ^ 53) by (apply Z.pow_pos_nonneg; lia).
        assert (0 < 2 ^ 971) by (apply Z.pow_pos_nonneg; lia).
        nia.
      - pose proof (round_half_even_bounds (- e) ltac:(lia) (Zpos m)) as R.
        assert (0 < 2 ^ (- e)) by (apply Z.pow_pos_nonneg; lia).
        assert (2 ^ 53 < 2 ^ 1024) by (apply Z.pow_lt_mono_r; lia).
        assert (0 <= round_half_even (Zpos m) (- e) <= Zpos m) by nia.
        lia. }
    revert A. generalize (if 0 <=? e then Zpos m * 2 ^ e else round_half_even (Zpos m) (- e)).
    intros v A. destruct s; cbn [cond_Zopp]; lia.
Qed.

Lemma float_pow_float (libm_pow : float -> float -> float) x y b :
  float_pow libm_pow x y <> Ok (Real (Int b)).
Proof.
  unfold float_pow.
  repeat match goal with
         | |- context [if ?c then _ else _] => destruct c
         | |- context [match float_integer ?y with _ => _ end] => destruct (float_integer y)
         end; discriminate.
Qed.

Section FiniteRate.

Variable libm_pow : float -> float -> float.

(** With a float rate every level comes out of [round] of a float. *)
Lemma quantum_float_rate_bound s g i q :
  quantum libm_pow s (Real (Float g)) i = Ok q -> Z.abs q < 2 ^ 1024.
Proof.
  unfold quantum, raw_value, py_pow.
  destruct (int_to_float i) as [y|e]; cbn [rbind]; [|discriminate].
  destruct (float_pow libm_pow g y) as [[[b|p]|]|e] eqn:P; cbn [rbind]; [| | |discriminate].
  - exfalso. exact (float_pow_float libm_pow g y b P).
  - destruct s as [a|f]; cbn [py_mul].
    + destruct (int_to_float a) as [fa|e]; cbn [rbind py_round]; [|discriminate].
      apply float_round_bound.
    + cbn [rbind py_round]. apply float_round_bound.
  - destruct s as [a|f]; cbn [py_mul].
    + destruct (int_to_float a) as [fa|e]; cbn [rbind py_round]; discriminate.
    + cbn [rbind py_round]. discriminate.
Qed.

Lemma expand_float_rate_printable levels s g quanta :
  expand libm_pow levels s (Real (Float g)) = Ok quanta ->
  Forall (fun q => printable q = true) quanta.
Proof.
  intro E. apply traverse_Forall2 in E.
  induction E as [|i q xs qs Hq _ IH]; constructor; [|exact IH].
  apply quantum_float_rate_bound in Hq. unfold printable, int_max_str_digits.
  apply Z.ltb_lt.
  assert (2 ^ 1024 < 10 ^ 4300) by (vm_compute; reflexivity). lia.
Qed.

(** The powers of a finite rate that is at least 1 are finite. *)
Lemma float_pow_finite_rate g mg eg i y v :
  Prim2SF g = S754_finite false mg eg -> (1 <= F2Q (Zpos mg) eg)%Q ->
  0 <= i -> int_to_float i = Ok y -> float_pow libm_pow g y = Ok v ->
  exists p mp ep, v = Real (Float p) /\ Prim2SF p = S754_finite false mp ep.
Proof.
  intros Hg H1 Hi Hy Hv.
  destruct (Z.eq_dec i 0) as [->|Ni].
  - rewrite int_to_float_0 in Hy. injection Hy as <-.
    rewrite float_pow_exponent_0 in Hv. injection Hv as <-.
    do 3 eexists. split; [reflexivity|exact Prim2SF_1].
  - destruct (exponent_pos i y ltac:(lia) Hy) as (_ & _ & _ & _ & _ & Pn).
    rewrite (float_pow_finite libm_pow g y mg eg i Hg ltac:(lia) Hy) in Hv.
    destruct (g =? 1)%float.
    + injection Hv as <-. do 3 eexists. split; [reflexivity|exact Prim2SF_1].
    + destruct (pow_exact_value g mg eg (exponent i) Hg H1 Pn) as [I|(I & mp & ep & K & _)];
        rewrite I in Hv; [discriminate|].
      injection Hv as <-. eauto.
Qed.

Lemma quantum_error_finite_rate a g mg eg i e :
  Prim2SF g = S754_finite false mg eg -> (1 <= F2Q (Zpos mg) eg)%Q -> 0 <= i ->
  quantum libm_pow (Int a) (Real (Float g)) i = Err e -> e = OverflowError.
Proof.
  intros Hg H1 Hi H.
  destruct (quantum_error libm_pow (Int a) (Float g) i e Hi H) as [E|E]; [exact E|exfalso].
  subst e. unfold quantum, raw_value, py_pow in H.
  destruct (int_to_float i) as [y|e'] eqn:Y; cbn [rbind] in H.
  2:{ apply int_to_float_error in Y. congruence. }
  destruct (float_pow libm_pow g y) as [v|e'] eqn:P; cbn [rbind] in H.
  2:{ destruct (float_pow_index libm_pow g y i Hi Y) as [(p & Q)|Q]; congruence. }
  destruct (float_pow_finite_rate g mg eg i y v Hg H1 Hi Y P) as (p & mp & ep & -> & Hp).
  cbn [py_mul] in H.
  destruct (int_to_float a) as [fa|e'] eqn:A; cbn [rbind py_round] in H.
  2:{ apply int_to_float_error in A. congruence. }
  pose proof (mul_finite_not_nan fa p mp ep (int_to_float_finite a fa A) Hp) as N.
  unfold float_round in H. destruct (Prim2SF (fa * p)); congruence.
Qed.

End FiniteRate.

(** ** The script *)

(** Lines 42-43. *)
Definition GROWTH_RATE : num := Float 1.1.
Definition TARGET_MAX : option num := None.

(** Lines 45-47, the block the script runs, given the two integers of lines
    38 and 39.  The prompts of [input] and the parsing done by [int] are not
    part of the model: [main] starts once both integers have been read. *)
Definition main (libm_pow : float -> float -> float) (TOTAL_LEVELS INITIAL_QUANTA : Z) : M unit :=
  result <- generate_exponential_quanta libm_pow TOTAL_LEVELS (Int INITIAL_QUANTA)
              (Some GROWTH_RATE) TARGET_MAX ;;
  print_cpp_array result.

Section Script.

Variable libm_pow : float -> float -> float.

Lemma main_expand levels a :
  main libm_pow levels a
  = match expand libm_pow levels (Int a) (Real GROWTH_RATE) with
    | Ok quanta => print_cpp_array quanta
    | Err e => ([], Err e)
    end.
Proof.
  unfold main, TARGET_MAX. rewrite generate_no_target.
  destruct (expand libm_pow levels (Int a) (Real GROWTH_RATE)) as [quanta|e]; cbn [bind].
  - destruct (print_cpp_array quanta) as [out r]. reflexivity.
  - reflexivity.
Qed.

Lemma GROWTH_RATE_finite :
  exists mg eg, Prim2SF 1.1 = S754_finite false mg eg /\ (1 <= F2Q (Zpos mg) eg)%Q.
Proof.
  destruct (leb_one 1.1 eq_refl) as [H|H]; [discriminate|exact H].
Qed.

(** X14.  The script, for any two integers read: either the generator
    raises OverflowError and nothing at all has been printed, or the output
    is exactly the table of the generated list, which has [max(0, levels)]
    entries, every one of them printable; no notice is printed since the
    rate 1.1 is supplied. *)
Theorem main_run levels a :
  main libm_pow levels a = ([], Err OverflowError)
  \/ exists quanta,
      generate_exponential_quanta libm_pow levels (Int a) (Some GROWTH_RATE) TARGET_MAX
        = ([], Ok quanta)
      /\ len quanta = Z.max 0 levels
      /\ Forall (fun q => printable q = true) quanta
      /\ main libm_pow levels a = print_cpp_array quanta.
Proof.
  rewrite main_expand. unfold TARGET_MAX. rewrite generate_no_target.
  destruct (expand libm_pow levels (Int a) (Real GROWTH_RATE)) as [quanta|e] eqn:E.
  - right. exists quanta. split; [reflexivity|split; [|split; [|reflexivity]]].
    + apply traverse_length in E. unfold len. rewrite E, range_length. lia.
    + exact (expand_float_rate_printable libm_pow levels (Int a) 1.1 quanta E).
  - left. do 2 f_equal.
    apply traverse_error in E as (i & I & E).
    destruct GROWTH_RATE_finite as (mg & eg & Hg & H1).
    exact (quantum_error_finite_rate libm_pow a 1.1 mg eg i e Hg H1 (range_nonneg _ _ I) E).
Qed.

End Script.

(** ** Reading the table back *)

Lemma numbers_in_header (n : Z) : numbers_in (header n) = [n].
Proof.
  destruct (str_chars n) as (Hall & Hne & _).
  unfold numbers_in, header.
  cbn [append numerals is_numeral_char flush app].
  rewrite numerals_app by assumption.
  cbn [append numerals is_numeral_char flush app].
  rewrite flush_nonempty by assumption. cbn [flat_map app].
  rewrite parse_int_str. reflexivity.
Qed.

Lemma take_rows_length cnt l : List.length (take_rows cnt l) = cnt.
Proof.
  revert l. induction cnt as [|c IH]; intro l; cbn; [reflexivity|]. rewrite IH. reflexivity.
Qed.

Lemma row_lines_length rows : List.length (row_lines rows) = List.length rows.
Proof.
  induction rows as [|r rows IH]; [reflexivity|].
  destruct rows as [|r' rows]; [reflexivity|].
  change (row_lines (r :: r' :: rows)) with ((row_text r ++ ",")%string :: row_lines (r' :: rows)).
  cbn [List.length]. rewrite IH. reflexivity.
Qed.

Definition output_lines (quanta : list Z) : list string :=
  (header (len quanta) :: row_lines (rows_of quanta) ++ ["};"%string])%list.

Lemma print_cpp_array_output_lines (quanta : list Z) :
  print_cpp_array quanta = (map Line (output_lines quanta), Ok tt).
Proof.
  rewrite print_cpp_array_rows. unfold output_lines. cbn [map]. rewrite map_app. reflexivity.
Qed.

Lemma numbers_in_output (quanta : list Z) :
  flat_map numbers_in (output_lines quanta) = len quanta :: quanta.
Proof.
  unfold output_lines. cbn [flat_map].
  rewrite numbers_in_header, flat_map_app, numbers_in_rows.
  cbn. rewrite app_nil_r. reflexivity.
Qed.

(** X1.  For a non-empty list of printable values the declaration gives the
    number of values as the array size; the values are written in order,
    eight to a row, the last row holding the one to eight values that are
    left; every row but the last ends with a comma and the last one does
    not. *)
Theorem print_cpp_array_rows_of_eight (quanta : list Z) :
  Forall (fun q => printable q = true) quanta -> quanta <> [] ->
  exists full last,
    print_cpp_array quanta
    = (Line ("constexpr int TIME_SLICE_QUANTA[" ++ str (len quanta) ++ "] = {")
         :: map Line (map (fun row => (row_text row ++ ",")%string) full ++ [row_text last])
         ++ [Line "};"],
       Ok tt)
    /\ (List.concat full ++ last)%list = quanta
    /\ Forall (fun row => List.length row = 8%nat) full
    /\ (1 <= List.length last <= 8)%nat
    /\ Forall (fun row => last_char (row_text row ++ ",") = Some ","%char) full
    /\ last_char (row_text last) <> Some ","%char.
Proof.
  intros _ Hne.
  destruct (rows_of_split quanta Hne) as (full & last & E & Hf & Hl & Hc).
  exists full, last.
  split; [|split; [exact Hc|split; [exact Hf|split; [exact Hl|split]]]].
  - rewrite print_cpp_array_rows, E, row_lines_snoc. reflexivity.
  - apply Forall_forall; intros row _.
    apply (last_char_app (row_text row) ","); discriminate.
  - destruct last as [|x last']; [cbn in Hl; lia|].
    destruct (exists_last (l := x :: last') ltac:(discriminate)) as (init & y & ->).
    destruct (str_chars y) as (_ & Hy & c & Hc' & Hcc).
    destruct (join_snoc init y) as [p J].
    unfold row_text. rewrite J, <- string_app_assoc, last_char_app, Hc' by assumption.
    congruence.
Qed.

(** X2.  For a list of printable values the renderer raises nothing.  Reading
    every integer of its output back, line by line, gives the number of
    values followed by the values, in order and unchanged; and it prints two
    lines more than the number of rows, [2 + ceil(len / 8)]: for the empty
    list, the declaration of an array of size 0 and its closing line. *)
Theorem print_cpp_array_read_back (quanta : list Z) :
  Forall (fun q => printable q = true) quanta ->
  exists lines,
    print_cpp_array quanta = (map Line lines, Ok tt)
    /\ flat_map numbers_in lines = len quanta :: quanta
    /\ len lines = 2 + (len quanta + 7) / 8.
Proof.
  intros _. exists (output_lines quanta).
  split; [apply print_cpp_array_output_lines|split; [apply numbers_in_output|]].
  unfold output_lines, len. cbn [List.length]. rewrite length_app, row_lines_length.
  unfold rows_of. rewrite take_rows_length. cbn [List.length].
  rewrite Nat2Z.inj_succ, Nat2Z.inj_add, Nat2Z.inj_div.
  rewrite Nat2Z.inj_add. change (Z.of_nat 7) with 7. change (Z.of_nat 8) with 8.
  change (Z.of_nat 1) with 1. lia.
Qed.

Lemma map_Line_inj l1 l2 : map Line l1 = map Line l2 -> l1 = l2.
Proof.
  revert l2. induction l1 as [|a l1 IH]; intros [|b l2] H; try discriminate; [reflexivity|].
  cbn in H. injection H as -> H. f_equal. apply IH, H.
Qed.

(** X3.  Two different lists of printable values are never printed as the
    same text. *)
Theorem print_cpp_array_injective (quanta1 quanta2 : list Z) :
  Forall (fun q => printable q = true) quanta1 ->
  Forall (fun q => printable q = true) quanta2 ->
  quanta1 <> quanta2 -> fst (print_cpp_array quanta1) <> fst (print_cpp_array quanta2).
Proof.
  intros _ _ Hne E. apply Hne.
  rewrite !print_cpp_array_output_lines in E. cbn [fst] in E. apply map_Line_inj in E.
  pose proof (numbers_in_output quanta1) as R1. rewrite E, numbers_in_output in R1.
  injection R1 as _ R1. symmetry. exact R1.
Qed.

(** ** Edges of the generator *)

Definition start_is_zero (s : num) : bool :=
  match s with
  | Int a => a =? 0
  | Float f => (f =? 0)%float
  end.

Section Edges.

Variable libm_pow : float -> float -> float.

(** X12.  In target mode a [start_ms] that is zero makes [target / start]
    raise before anything is printed: ZeroDivisionError, or OverflowError
    when the target is an [int] too large to convert for the division by a
    float zero. *)
Theorem generate_target_zero_start levels start_ms growth_rate target :
  start_is_zero start_ms = true ->
  exists e,
    generate_exponential_quanta libm_pow levels start_ms growth_rate (Some target) = ([], Err e)
    /\ (e = ZeroDivisionError
        \/ e = OverflowError /\ exists x, target = Int x /\ int_to_float x = Err OverflowError).
Proof.
  intro Hz. unfold generate_exponential_quanta, resolve_rate.
  assert (D : exists e, py_truediv target start_ms = Err e
                /\ (e = ZeroDivisionError
                    \/ e = OverflowError
                       /\ exists x, target = Int x /\ int_to_float x = Err OverflowError)).
  { destruct start_ms as [a|f]; cbn in Hz.
    - apply Z.eqb_eq in Hz. subst a. destruct target as [x|x]; cbn [py_truediv].
      + exists ZeroDivisionError. split; [reflexivity|left; reflexivity].
      + exists ZeroDivisionError. split; [reflexivity|left; reflexivity].
    - destruct target as [x|x]; cbn [py_truediv].
      + destruct (int_to_float x) as [fx|e] eqn:E; cbn [rbind].
        * unfold float_div. rewrite Hz. exists ZeroDivisionError. split; [reflexivity|left; reflexivity].
        * pose proof (int_to_float_error _ _ E). subst e.
          exists OverflowError. split; [reflexivity|right; eauto].
      + unfold float_div. rewrite Hz. exists ZeroDivisionError. split; [reflexivity|left; reflexivity]. }
  destruct D as (e & D & He). exists e. rewrite D. split; [reflexivity|exact He].
Qed.

(** X10.  With no target, an [int] start of at most 53 bits and at least one
    level, the first entry of the table is [start_ms] itself, whatever the
    rate is (a NaN rate included, since [rate ** 0] is 1). *)
Theorem generate_first levels a growth_rate out quanta :
  Z.abs a <= 2 ^ 53 -> 0 < levels ->
  generate_exponential_quanta libm_pow levels (Int a) growth_rate None = (out, Ok quanta) ->
  nth_error quanta 0 = Some a.
Proof.
  intros Ha Hl H. rewrite generate_no_target in H.
  assert (E : exists r, expand libm_pow levels (Int a) (Real r) = Ok quanta).
  { destruct growth_rate; injection H as _ H; eauto. }
  destruct E as [r E]. unfold expand in E.
  destruct (range_pos levels Hl) as (rest & R). rewrite R in E. cbn [traverse] in E.
  assert (Q : quantum libm_pow (Int a) (Real r) 0 = Ok a).
  { rewrite quantum_0. destruct r; [reflexivity|].
    destruct (int_to_float_small a Ha) as (fa & -> & F). exact F. }
  rewrite Q in E. cbn [rbind] in E.
  destruct (traverse _ rest); [|discriminate]. injection E as <-. reflexivity.
Qed.

End Edges.

Section Table.

Variable libm_pow : float -> float -> float.

(** X15.  With [TOTAL_LEVELS <= 0] the script prints the declaration of an
    empty array, whatever [INITIAL_QUANTA] is. *)
Theorem main_nonpositive_levels levels a :
  levels <= 0 ->
  main libm_pow levels a
  = ([Line "constexpr int TIME_SLICE_QUANTA[0] = {"; Line "};"], Ok tt).
Proof.
  intro H. rewrite main_expand. unfold expand. rewrite (range_nil _ H). reflexivity.
Qed.


End Table.

(** ** What the C library is asked *)

Section Libm.

Variables libm1 libm2 : float -> float -> float.





End Libm.

(** ** Two levels in target mode *)

Lemma float_tests_finite x :
  is_nan x = false -> is_infinity x = false -> (x =? 0)%float = false ->
  exists s m e, Prim2SF x = S754_finite s m e.
Proof.
  unfold is_nan, is_infinity. rewrite !eqb_spec, abs_spec, Prim2SF_0, Prim2SF_infinity.
  destruct (Prim2SF x) as [s|s| |s m e]; cbn; intros H1 H2 H3; try discriminate.
  eauto.
Qed.

Lemma pow_exact_1 x m e : Prim2SF x = S754_finite false m e -> pow_exact x 1 = x.
Proof.
  intro X. unfold pow_exact. rewrite X, Z.pow_1_r, Z.mul_1_r. cbn [binary_normalize].
  assert (V : valid_binary (S754_finite false m e) = true) by (rewrite <- X; apply Prim2SF_valid).
  rewrite binary_round_pack.
  destruct (valid_canonical _ _ _ V) as [C _].
  unfold rnd_mant. rewrite C, Z.leb_refl, Z.sub_diag, round_half_even_0.
  rewrite (pack_canonical _ _ _ V), <- X. apply SF2Prim_Prim2SF.
Qed.

Section TwoLevels.

Variable libm_pow : float -> float -> float.

(** [x ** 1.0] is [x], whatever float [x] is. *)
Lemma float_pow_one x : float_pow libm_pow x 1 = Ok (Real (Float x)).
Proof.
  unfold float_pow.
  change (1 =? 0)%float with false. change (is_nan 1) with false.
  change (is_infinity 1) with false. change (0 <? 1)%float with true.
  change (1 <? 0)%float with false. change (is_odd_integer 1) with true.
  change (float_integer 1) with (Some 1). cbv iota.
  destruct (is_nan x) eqn:N; [reflexivity|].
  destruct (is_infinity x) eqn:I; [reflexivity|].
  destruct (x =? 0)%float eqn:Z; [reflexivity|].
  destruct (float_tests_finite x N I Z) as (s & m & e & X).
  assert (A : Prim2SF (abs x) = S754_finite false m e) by (rewrite abs_spec, X; reflexivity).
  assert (L : (x <? 0)%float = s).
  { rewrite ltb_spec, X, Prim2SF_0. destruct s; reflexivity. }
  assert (IA : is_infinity (abs x) = false).
  { destruct (finite_pos_tests _ _ _ A) as (_ & IA & _). exact IA. }
  assert (P : c_pow libm_pow (abs x) 1 = abs x).
  { unfold c_pow. change (float_integer 1) with (Some 1). change (0 <? 1) with true.
    cbv iota. exact (pow_exact_1 _ _ _ A). }
  assert (S : (if s then (- abs x)%float else abs x) = x).
  { apply Prim2SF_inj. destruct s.
    - rewrite opp_spec, A, X. reflexivity.
    - rewrite A, X. reflexivity. }
  rewrite L, P, IA.
  destruct ((abs x =? 1)%float) eqn:E1.
  - apply (eqb_one _ _ _ A) in E1. rewrite E1 in S.
    destruct s; cbn [andb]; rewrite <- S; reflexivity.
  - destruct s; cbn [andb]; rewrite <- S at 2; reflexivity.
Qed.


(** X13.  In target mode with two levels and a printable target the
    exponent [1 / (levels - 1)] is [1.0] and [ratio ** 1.0] is [ratio]: the
    derived rate is exactly [target / start], the C library is not consulted,
    and the table is [[round(start * 1.0), round(start * ratio)]]. *)
Theorem generate_two_levels_target start_ms growth_rate target ratio :
  printable_num target = true ->
  py_truediv target start_ms = Ok ratio ->
  generate_exponential_quanta libm_pow 2 start_ms growth_rate (Some target)
  = ([InfoCalculated target (Real (Float ratio))],
     v0 <~ py_mul start_ms (Real (Float 1)) ;; q0 <~ py_round v0 ;;
     v1 <~ py_mul start_ms (Real (Float ratio)) ;; q1 <~ py_round v1 ;;
     Ok [q0; q1]).
Proof.
  intros _ H. rewrite generate_expand. unfold resolve_rate. rewrite H.
  change (py_truediv (Int 1) (Int (2 - 1))) with (Ok 1%float).
  cbn [lift bind py_pow app]. rewrite float_pow_one. cbn [lift bind print ret app].
  unfold expand. change (range 2) with [0; 1]. cbn [traverse].
  unfold quantum, raw_value. cbn [py_pow].
  rewrite int_to_float_0. change (int_to_float 1) with (Ok 1%float). cbn [rbind].
  rewrite float_pow_exponent_0, float_pow_one. cbn [rbind].
  destruct (py_mul start_ms (Real (Float 1))) as [v0|e]; cbn [rbind]; [|reflexivity].
  destruct (py_round v0) as [q0|e]; cbn [rbind]; [|reflexivity].
  destruct (py_mul start_ms (Real (Float ratio))) as [v1|e]; cbn [rbind]; [|reflexivity].
  destruct (py_round v1) as [q1|e]; cbn [rbind]; reflexivity.
Qed.

End TwoLevels.

(** ** More runs *)

Lemma print_cpp_array_rows_of_eight_witness :
  Forall (fun q => printable q = true) [1; 2; 3; 4; 5; 6; 7; 8; 9]
  /\ [1; 2; 3; 4; 5; 6; 7; 8; 9] <> []
  /\ exists full last,
      print_cpp_array [1; 2; 3; 4; 5; 6; 7; 8; 9]
      = (Line ("constexpr int TIME_SLICE_QUANTA[" ++ str (len [1; 2; 3; 4; 5; 6; 7; 8; 9]) ++ "] = {")
           :: map Line (map (fun row => (row_text row ++ ",")%string) full ++ [row_text last])
           ++ [Line "};"],
         Ok tt)
      /\ (List.concat full ++ last)%list = [1; 2; 3; 4; 5; 6; 7; 8; 9]
      /\ Forall (fun row => List.length row = 8%nat) full
      /\ (1 <= List.length last <= 8)%nat
      /\ Forall (fun row => last_char (row_text row ++ ",") = Some ","%char) full
      /\ last_char (row_text last) <> Some ","%char.
Proof.
  assert (P : Forall (fun q => printable q = true) [1; 2; 3; 4; 5; 6; 7; 8; 9])
    by (repeat constructor; vm_compute; reflexivity).
  split; [exact P|split; [discriminate|]].
  apply (print_cpp_array_rows_of_eight [1; 2; 3; 4; 5; 6; 7; 8; 9] P). discriminate.
Defined.

Lemma print_cpp_array_read_back_witness :
  Forall (fun q => printable q = true) [10; -20; 40]
  /\ exists lines,
      print_cpp_array [10; -20; 40] = (map Line lines, Ok tt)
      /\ flat_map numbers_in lines = len [10; -20; 40] :: [10; -20; 40]
      /\ len lines = 2 + (len [10; -20; 40] + 7) / 8.
Proof.
  assert (P : Forall (fun q => printable q = true) [10; -20; 40])
    by (repeat constructor; vm_compute; reflexivity).
  split; [exact P|].
  apply (print_cpp_array_read_back [10; -20; 40] P).
Defined.

Lemma print_cpp_array_injective_witness :
  Forall (fun q => printable q = true) [1; 2]
  /\ Forall (fun q => printable q = true) [1; 3]
  /\ [1; 2] <> [1; 3]
  /\ fst (print_cpp_array [1; 2]) <> fst (print_cpp_array [1; 3]).
Proof.
  assert (P1 : Forall (fun q => printable q = true) [1; 2])
    by (repeat constructor; vm_compute; reflexivity).
  assert (P2 : Forall (fun q => printable q = true) [1; 3])
    by (repeat constructor; vm_compute; reflexivity).
  split; [exact P1|split; [exact P2|split; [discriminate|]]].
  apply (print_cpp_array_injective [1; 2] [1; 3] P1 P2); discriminate.
Defined.

Lemma generate_output_witness :
  printable_num (Int 5) = true
  /\ generate_exponential_quanta pow_unused 2 (Float nan) None (Some (Int 5))
     = ([InfoCalculated (Int 5) (Real (Float nan))], Err ValueError)
  /\ fst (generate_exponential_quanta pow_unused 2 (Float nan) None (Some (Int 5)))
     = [InfoCalculated (Int 5) (Real (Float nan))].
Proof.
  assert (P : printable_num (Int 5) = true) by (vm_compute; reflexivity).
  split; [exact P|split; [vm_compute; reflexivity|]].
  rewrite (generate_output pow_unused 2 (Float nan) None (Int 5) P).
  vm_compute. reflexivity.
Defined.

Lemma generate_length_any_mode_witness :
  generate_exponential_quanta pow_unused 2 (Int 10) None (Some (Int 40))
    = ([InfoCalculated (Int 40) (Real (Float 4))], Ok [10; 40])
  /\ len [10; 40] = Z.max 0 2.
Proof.
  assert (H : generate_exponential_quanta pow_unused 2 (Int 10) None (Some (Int 40))
              = ([InfoCalculated (Int 40) (Real (Float 4))], Ok [10; 40]))
    by (vm_compute; reflexivity).
  split; [exact H|].
  exact (generate_length_any_mode pow_unused 2 (Int 10) None (Some (Int 40)) _ _ H).
Defined.

Lemma quantum_nearest_witness :
  raw_value pow_unused (Int 10) (Real (Float 1.15)) 1 = Ok (Real (Float 11.5))
  /\ quantum pow_unused (Int 10) (Real (Float 1.15)) 1 = Ok 12
  /\ (2 * Qabs (inject_Z 12 - float_value 11.5) <= 1)%Q
  /\ Z.even 12 = true.
Proof.
  assert (Hx : raw_value pow_unused (Int 10) (Real (Float 1.15)) 1 = Ok (Real (Float 11.5)))
    by (vm_compute; reflexivity).
  assert (Hq : quantum pow_unused (Int 10) (Real (Float 1.15)) 1 = Ok 12)
    by (vm_compute; reflexivity).
  destruct (quantum_nearest pow_unused (Int 10) (Real (Float 1.15)) 1 11.5 12 Hx Hq) as [B T].
  split; [exact Hx|split; [exact Hq|split; [exact B|]]].
  apply T. vm_compute. reflexivity.
Defined.


Lemma generate_errors_witness :
  generate_exponential_quanta pow_unused 2 (Float 1e308) (Some (Float 10)) None
    = ([], Err OverflowError)
  /\ (OverflowError = OverflowError \/ OverflowError = ValueError).
Proof.
  assert (H : generate_exponential_quanta pow_unused 2 (Float 1e308) (Some (Float 10)) None
              = ([], Err OverflowError)) by (vm_compute; reflexivity).
  split; [exact H|].
  exact (proj1 (generate_errors pow_unused 2 (Float 1e308) (Some (Float 10)) [] _ H)).
Defined.

Lemma generate_first_witness :
  Z.abs 10 <= 2 ^ 53 /\ 0 < 5
  /\ generate_exponential_quanta pow_unused 5 (Int 10) (Some (Float 1.1)) None
     = ([], Ok [10; 11; 12; 13; 15])
  /\ nth_error [10; 11; 12; 13; 15] 0 = Some 10.
Proof.
  assert (H : generate_exponential_quanta pow_unused 5 (Int 10) (Some (Float 1.1)) None
              = ([], Ok [10; 11; 12; 13; 15])) by (vm_compute; reflexivity).
  assert (A : Z.abs 10 <= 2 ^ 53) by (vm_compute; discriminate).
  split; [exact A|split; [lia|split; [exact H|]]].
  exact (generate_first pow_unused 5 10 (Some (Float 1.1)) [] _ A ltac:(lia) H).
Defined.

Lemma generate_target_zero_start_witness :
  start_is_zero (Int 0) = true
  /\ exists e,
      generate_exponential_quanta pow_unused 3 (Int 0) None (Some (Int 100)) = ([], Err e)
      /\ (e = ZeroDivisionError
          \/ e = OverflowError /\ exists x, Int 100 = Int x /\ int_to_float x = Err OverflowError).
Proof.
  split; [reflexivity|].
  apply (generate_target_zero_start pow_unused 3 (Int 0) None (Int 100)). reflexivity.
Defined.

Lemma generate_two_levels_target_witness :
  printable_num (Int 40) = true
  /\ py_truediv (Int 40) (Int 10) = Ok 4%float
  /\ generate_exponential_quanta pow_unused 2 (Int 10) None (Some (Int 40))
     = ([InfoCalculated (Int 40) (Real (Float 4))], Ok [10; 40]).
Proof.
  assert (P : printable_num (Int 40) = true) by (vm_compute; reflexivity).
  assert (H : py_truediv (Int 40) (Int 10) = Ok 4%float) by (vm_compute; reflexivity).
  split; [exact P|split; [exact H|]].
  rewrite (generate_two_levels_target pow_unused (Int 10) None (Int 40) 4 P H).
  vm_compute. reflexivity.
Defined.

Lemma main_nonpositive_levels_witness :
  0 <= 0
  /\ main pow_unused 0 20 = ([Line "constexpr int TIME_SLICE_QUANTA[0] = {"; Line "};"], Ok tt).
Proof.
  split; [lia|].
  apply (main_nonpositive_levels pow_unused 0 20). lia.
Defined.

